(** * SSX-EHRs: the MJ18 polynomial-divisibility proof scheme

    A shallow embedding of [src/our_scheme/test/charm_auth_test.py]:
    the polynomial engine ([polynomial_multiply], [polynomial_division],
    [verify_polynomial_division]) and the scheme object [MJ18] with its
    methods [setup], [prove] and [verify].

    The pairing library (Charm's [PairingGroup]) is an external
    collaborator; it is taken as an interface, the class [PairingGroup]
    below, together with the algebraic laws every prime-order symmetric
    pairing group satisfies.  Python exceptions are values of type [exn],
    and every function that can raise returns a [result]. *)

From Stdlib Require Import ZArith List Bool Lia Arith Ring Field.
From Stdlib Require Import Zmod.
From Stdlib Require String DecimalString.
Import ListNotations.

Set Implicit Arguments.

(** ** Exceptions and the error monad *)

Inductive exn : Type :=
| AttributeError      (* an attribute of [self] read before [setup] set it *)
| ValueError          (* raised by [polynomial_division] on a zero divisor *)
| IndexError.         (* list index out of range *)

Inductive result (A : Type) : Type :=
| Ok (a : A)
| Raise (e : exn).

Arguments Ok {A} a.
Arguments Raise {A} e.

Definition bind {A B} (m : result A) (k : A -> result B) : result B :=
  match m with
  | Ok a => k a
  | Raise e => Raise e
  end.

Declare Scope py_scope.
Delimit Scope py_scope with py.
Notation "x <- m ;; k" := (bind m (fun x => k))
  (at level 61, m at next level, right associativity) : py_scope.
Notation "' p <- m ;; k" := (bind m (fun x => match x with p => k end))
  (at level 61, p pattern, m at next level, right associativity) : py_scope.
Open Scope py_scope.

(** [self.x]: reading an attribute that has not been assigned yet. *)
Definition getattr {A} (a : option A) : result A :=
  match a with
  | Some x => Ok x
  | None => Raise AttributeError
  end.

(** [l[i]] for an index [i >= 0]. *)
Definition getitem {A} (l : list A) (i : nat) : result A :=
  match nth_error l i with
  | Some x => Ok x
  | None => Raise IndexError
  end.

Fixpoint replace_nth {A} (l : list A) (i : nat) (v : A) : list A :=
  match l, i with
  | [], _ => []
  | _ :: l', O => v :: l'
  | x :: l', S i' => x :: replace_nth l' i' v
  end.

(** [l[i] = v] for an index [i >= 0]: Python raises out of range. *)
Definition setitem {A} (l : list A) (i : nat) (v : A) : result (list A) :=
  if i <? length l then Ok (replace_nth l i v) else Raise IndexError.

(** [for i in l: s = body i s], stopping at the first exception. *)
Fixpoint foldM {S} (body : nat -> S -> result S) (l : list nat) (s : S)
  : result S :=
  match l with
  | [] => Ok s
  | i :: l' =>
      match body i s with
      | Ok s' => foldM body l' s'
      | Raise e => Raise e
      end
  end.

(** [range(n)] for a Python integer [n]: empty when [n <= 0]. *)
Definition range (n : Z) : list nat := seq 0 (Z.to_nat n).

Definition for_range {S} (n : Z) (body : nat -> S -> result S) (s : S)
  : result S :=
  foldM body (range n) s.

(** [[f(i) for i in l]] where [f] may raise. *)
Fixpoint mapM {A B} (f : A -> result B) (l : list A) : result (list B) :=
  match l with
  | [] => Ok []
  | a :: l' => b <- f a ;; bs <- mapM f l' ;; Ok (b :: bs)
  end.

Definition len {A} (l : list A) : Z := Z.of_nat (length l).

(** ** The pairing-group capability *)

Class PairingGroup : Type := {
  ZR : Type;                       (* scalars *)
  G1 : Type;                       (* source group *)
  GT : Type;                       (* target group *)
  zr0 : ZR;
  zr1 : ZR;
  zr_add : ZR -> ZR -> ZR;
  zr_mul : ZR -> ZR -> ZR;
  zr_sub : ZR -> ZR -> ZR;
  zr_opp : ZR -> ZR;
  zr_div : ZR -> ZR -> ZR;
  zr_inv : ZR -> ZR;
  zr_eqb : ZR -> ZR -> bool;
  g1_one : G1;                     (* [group.init(G1, 1)] *)
  g1_mul : G1 -> G1 -> G1;         (* [a * b] *)
  g1_pow : G1 -> ZR -> G1;         (* [a ** x] *)
  gt_pow : GT -> ZR -> GT;
  gt_eqb : GT -> GT -> bool;
  pair : G1 -> G1 -> GT;
  (* laws *)
  zr_field : field_theory zr0 zr1 zr_add zr_mul zr_sub zr_opp zr_div zr_inv eq;
  zr_eqb_spec : forall x y, reflect (x = y) (zr_eqb x y);
  g1_pow_zero : forall a, g1_pow a zr0 = g1_one;
  g1_pow_add : forall a x y, g1_pow a (zr_add x y) = g1_mul (g1_pow a x) (g1_pow a y);
  g1_pow_pow : forall a x y, g1_pow (g1_pow a x) y = g1_pow a (zr_mul x y);
  gt_pow_pow : forall z x y, gt_pow (gt_pow z x) y = gt_pow z (zr_mul x y);
  gt_eqb_spec : forall x y, reflect (x = y) (gt_eqb x y);
  pair_pow_l : forall a b x, pair (g1_pow a x) b = gt_pow (pair a b) x;
  pair_pow_r : forall a b y, pair a (g1_pow b y) = gt_pow (pair a b) y
}.

Declare Scope zr_scope.
Delimit Scope zr_scope with zr.
Infix "+" := zr_add : zr_scope.
Infix "*" := zr_mul : zr_scope.
Infix "-" := zr_sub : zr_scope.
Infix "/" := zr_div : zr_scope.
Notation "- x" := (zr_opp x) : zr_scope.
Infix "==" := zr_eqb (at level 70, no associativity) : zr_scope.

Section Scheme.

Context {PG : PairingGroup}.

Local Open Scope zr_scope.

(** [x ** i] for a scalar [x] and a Python integer [i >= 0]. *)
Fixpoint zr_pown (x : ZR) (i : nat) : ZR :=
  match i with
  | O => zr1
  | S i' => x * zr_pown x i'
  end.

(** [sum(xs)]: Python starts from [0] and adds from the left. *)
Definition py_sum (xs : list ZR) : ZR := fold_left zr_add xs zr0.

(** ** Polynomial engine *)

(** [polynomial_multiply(a, b, group)] *)
Definition polynomial_multiply (a b : list ZR) : result (list ZR) :=
  let result_degree := (len a + len b - 2)%Z in
  let result := map (fun _ => zr0) (range (result_degree + 1)) in
  for_range (len a) (fun i result =>
    for_range (len b) (fun j result =>
      r <- getitem result (i + j) ;;
      ai <- getitem a i ;;
      bj <- getitem b j ;;
      setitem result (i + j) (r + ai * bj)) result) result.

(** [all(coef == zero for coef in t)] *)
Definition all_zero (t : list ZR) : bool := forallb (fun coef => coef == zr0) t.

(** [while l and l[-1] == zero: l.pop()], on the reversed list. *)
Fixpoint drop_zeros (l : list ZR) : list ZR :=
  match l with
  | [] => []
  | x :: l' => if x == zr0 then drop_zeros l' else l
  end.

Definition trim (l : list ZR) : list ZR := rev (drop_zeros (rev l)).

(** One pass of the long-division loop body, on the pair
    [(quotient, remainder)].  [remainder[i] / t[0]] is the division
    [zr_div] of the pairing library, an operation on scalars; the field
    laws fix its value for a non-zero divisor only. *)
Definition division_step (t : list ZR) (i : nat)
  (qr : list ZR * list ZR) : result (list ZR * list ZR) :=
  let '(quotient, remainder) := qr in
  ri <- getitem remainder i ;;
  if ri == zr0 then Ok (quotient, remainder)        (* continue *)
  else
    t0 <- getitem t 0 ;;
    let coef := ri / t0 in
    quotient <- setitem quotient i coef ;;
    remainder <- for_range (len t) (fun j remainder =>
        r <- getitem remainder (i + j) ;;
        tj <- getitem t j ;;
        setitem remainder (i + j) (r - coef * tj)) remainder ;;
    Ok (quotient, remainder).

(** [polynomial_division(p, t, group)] *)
Definition polynomial_division (p t : list ZR)
  : result (list ZR * list ZR) :=
  if (len t =? 0)%Z || all_zero t then Raise ValueError
  else
    let quotient := map (fun _ => zr0) (range (len p - len t + 1)) in
    let remainder := p in
    '(quotient, remainder) <-
      for_range (len p - len t + 1) (division_step t) (quotient, remainder) ;;
    Ok (quotient, trim remainder).

(** The loop of [verify_polynomial_division] that adds the remainder to
    the product, appending where the product is shorter. *)
Definition add_remainder (product remainder : list ZR) : result (list ZR) :=
  for_range (len remainder) (fun i product =>
    if (Z.of_nat i <? len product)%Z then
      x <- getitem product i ;;
      ri <- getitem remainder i ;;
      setitem product i (x + ri)
    else
      ri <- getitem remainder i ;;
      Ok (product ++ [ri])) product.

(** [all(p[i] == product[i] for i in range(len(p)))] *)
Definition all_equal (p product : list ZR) : result bool :=
  for_range (len p) (fun i (acc : bool) =>
    if acc then
      x <- getitem p i ;;
      y <- getitem product i ;;
      Ok (x == y)
    else Ok false) true.

(** [verify_polynomial_division(p, t, quotient, remainder, group)] *)
Definition verify_polynomial_division (p t quotient remainder : list ZR)
  : result bool :=
  product <- polynomial_multiply quotient t ;;
  product <- add_remainder product remainder ;;
  if (len p =? len product)%Z then all_equal p product else Ok false.

(** ** The scheme object

    [MJ18.__init__] assigns [self.group] and [self.d]; the attributes
    [self.s], [self.alpha], [self.g] and [self.t_coeffs] exist only once
    [setup] has assigned them.  The degree is a natural number. *)

Record MJ18 : Type := {
  self_d : nat;
  self_s : option ZR;
  self_alpha : option ZR;
  self_g : option G1;
  self_t_coeffs : option (list ZR)
}.

(** [MJ18(group, degree)] *)
Definition init (degree : nat) : MJ18 :=
  {| self_d := degree; self_s := None; self_alpha := None;
     self_g := None; self_t_coeffs := None |}.

(** The values [group.random] returns during one call of [setup], in the
    order they are drawn. *)
Record coins : Type := {
  rnd_s : ZR;
  rnd_alpha : ZR;
  rnd_g : G1;
  rnd_t : ZR
}.

Definition ProvingKey : Type := list G1 * list G1.
Definition VerificationKey : Type := G1 * G1.
Definition proof_t : Type := G1 * G1 * G1.

(** [sum(c[i] * (x ** i) for i in range(len(c)))] with [c] and [x] at hand;
    every index is below [len(c)]. *)
Definition eval_at (c : list ZR) (x : ZR) : ZR :=
  py_sum (map (fun i => nth i c zr0 * zr_pown x i) (range (len c))).

(** [MJ18.setup(self)]: the object after the call, and the returned
    [(PK, VK)]. *)
Definition setup (self : MJ18) (rnd : coins)
  : MJ18 * (ProvingKey * VerificationKey) :=
  let s := rnd_s rnd in
  let alpha := rnd_alpha rnd in
  let g := rnd_g rnd in
  let g_alpha := g1_pow g alpha in
  let g_s_i := map (fun i => g1_pow g (zr_pown s i)) (range (Z.of_nat (self_d self) + 1)) in
  let g_alpha_s_i :=
    map (fun i => g1_pow g (alpha * zr_pown s i)) (range (Z.of_nat (self_d self) + 1)) in
  let t_coeffs := map (fun _ => rnd_t rnd) (range 1) in
  let t_s := eval_at t_coeffs s in
  let gt_s := g1_pow g t_s in
  ({| self_d := self_d self; self_s := Some s; self_alpha := Some alpha;
      self_g := Some g; self_t_coeffs := Some t_coeffs |},
   ((g_s_i, g_alpha_s_i), (g_alpha, gt_s))).

(** [acc = group.init(G1, 1); for i in range(n): acc *= base[i] ** c[i]] *)
Definition commit (n : Z) (base : list G1) (c : list ZR) : result G1 :=
  for_range n (fun i acc =>
    b <- getitem base i ;;
    ci <- getitem c i ;;
    Ok (g1_mul acc (g1_pow b ci))) g1_one.

(** [MJ18.prove(self, PK, VC)]; [delta] is the blinding scalar the call
    draws. *)
Definition prove (self : MJ18) (PK : ProvingKey) (VC : list ZR) (delta : ZR)
  : result proof_t :=
  let '(g_s_i, g_alpha_s_i) := PK in
  let p_coeffs := VC in
  terms <- mapM (fun i =>
      pi <- getitem p_coeffs i ;;
      s <- getattr (self_s self) ;;
      Ok (pi * zr_pown s i)) (range (len p_coeffs)) ;;
  let p_s := py_sum terms in
  g <- getattr (self_g self) ;;
  let gp_s := g1_pow g p_s in
  t_coeffs <- getattr (self_t_coeffs self) ;;
  '(h_coeffs, r_coeffs) <- polynomial_division p_coeffs t_coeffs ;;
  gh_s <- commit (len h_coeffs) g_s_i h_coeffs ;;
  gr_s <- commit (len r_coeffs) g_s_i r_coeffs ;;
  g_alpha_p_s <- commit (Z.of_nat (self_d self) + 1) g_alpha_s_i p_coeffs ;;
  Ok (g1_pow gp_s delta, g1_pow gh_s delta, g1_pow g_alpha_p_s delta).

(** [MJ18.verify(self, VK, pi)]; the two diagnostic [print]s are not
    modelled. *)
Definition verify (self : MJ18) (VK : VerificationKey) (pi : proof_t)
  : result bool :=
  let '(g_delta_p_s, g_delta_h_s, g_delta_alpha_p_s) := pi in
  let '(g_alpha, g_t_s) := VK in
  g <- getattr (self_g self) ;;
  let pair_1 := pair g_delta_alpha_p_s g in
  let pair_2 := pair g_delta_p_s g_alpha in
  let pair_3 := pair g_delta_p_s g in
  let pair_4 := pair g_delta_h_s g_t_s in
  let is_valid_restriction := gt_eqb pair_1 pair_2 in
  let is_valid_cofactor := gt_eqb pair_3 pair_4 in
  Ok (is_valid_restriction && is_valid_cofactor).

(** The object with the trapdoor attributes deleted. *)
Definition forget_trapdoor (self : MJ18) : MJ18 :=
  {| self_d := self_d self; self_s := None; self_alpha := None;
     self_g := self_g self; self_t_coeffs := self_t_coeffs self |}.

End Scheme.

Unset Implicit Arguments.

(** ** Vocabulary of the statements *)

Section Vocabulary.

Context {PG : PairingGroup}.

Local Open Scope zr_scope.

(** The coefficient of [x^k]; zero beyond the end of the list. *)
Definition coef (l : list ZR) (k : nat) : ZR := nth k l zr0.

(** [f 0 + f 1 + ... + f (n-1)] *)
Fixpoint bigsum (f : nat -> ZR) (n : nat) : ZR :=
  match n with
  | O => zr0
  | S n' => bigsum f n' + f n'
  end.

(** The [k]-th coefficient of the convolution: the sum of [a[i] * b[j]]
    over the index pairs with [i + j = k]. *)
Definition conv (a b : list ZR) (k : nat) : ZR :=
  bigsum (fun i => if i <=? k then coef a i * coef b (k - i) else zr0)
         (length a).

(** The same coefficient written over all index pairs [(i, j)]: the sum of
    [a[i] * b[j]] over [i < len(a)], [j < len(b)] with [i + j = k]. *)
Definition conv_pairs (a b : list ZR) (k : nat) : ZR :=
  bigsum (fun i =>
    bigsum (fun j => if (i + j =? k)%nat then coef a i * coef b j else zr0)
           (length b))
         (length a).

(** What one pass of the division loop does. *)
Inductive step_outcome (t : list ZR) (i : nat) (q rem : list ZR)
  : result (list ZR * list ZR) -> Prop :=
| step_continue :
    coef rem i = zr0 ->
    step_outcome t i q rem (Ok (q, rem))
| step_reduce rem' :
    coef rem i <> zr0 ->
    length rem' = length rem ->
    (forall k, coef rem' k =
       coef rem k -
       (if i <=? k then coef rem i / coef t 0 * coef t (k - i) else zr0)) ->
    step_outcome t i q rem
      (Ok (replace_nth q i (coef rem i / coef t 0), rem')).

(** The invariant of the long-division loop before pass [i]. *)
Definition division_inv (p t : list ZR) (i : nat)
  (qr : list ZR * list ZR) : Prop :=
  let '(q, rem) := qr in
  length q = Z.to_nat (len p - len t + 1) /\
  length rem = length p /\
  (forall k, conv q t k + coef rem k = coef p k) /\
  (forall k, (i <= k)%nat -> coef q k = zr0) /\
  (coef t 0 <> zr0 -> forall k, (k < i)%nat -> coef rem k = zr0).

(** Every way [polynomial_division] can end. *)
Inductive division_outcome (p t : list ZR)
  : result (list ZR * list ZR) -> Prop :=
| division_invalid :
    t = [] \/ (forall c, In c t -> c = zr0) ->
    division_outcome p t (Raise ValueError)
| division_returns q rem :
    t <> [] -> ~ (forall c, In c t -> c = zr0) ->
    division_inv p t (Z.to_nat (len p - len t + 1)) (q, rem) ->
    division_outcome p t (Ok (q, trim rem)).

(** The object, proving key and verification key a run of [setup] on a
    fresh object of degree [d] leaves. *)
Definition after_setup (d : nat) (rnd : coins) : MJ18 :=
  fst (setup (init d) rnd).
Definition pk_of (d : nat) (rnd : coins) : ProvingKey :=
  fst (snd (setup (init d) rnd)).
Definition vk_of (d : nat) (rnd : coins) : VerificationKey :=
  snd (snd (setup (init d) rnd)).

(** The object with other values in its trapdoor attributes. *)
Definition with_trapdoor (self : MJ18) (s alpha : option ZR) : MJ18 :=
  {| self_d := self_d self; self_s := s; self_alpha := alpha;
     self_g := self_g self; self_t_coeffs := self_t_coeffs self |}.

End Vocabulary.

(** ** The test driver *)

Section Driver.

Context {PG : PairingGroup}.

(** [test_zksnark()]: [vc i] is the [i]-th scalar drawn for [VC], [rnd]
    the draws of [setup] and [delta] the draw of [prove], in the order the
    function makes them.  The value is the verification result the
    function prints. *)
Definition test_zksnark (vc : nat -> ZR) (rnd : coins) (delta : ZR)
  : result bool :=
  let d := 3%nat in
  let authToken := init d in
  let VC := map vc (range (Z.of_nat d + 1)) in
  let '(authToken, (PK, VK)) := setup authToken rnd in
  pi <- prove authToken PK VC delta ;;
  verified <- verify authToken VK pi ;;
  Ok verified.

End Driver.

(** ** The Merkle-tree index

    [src/index/main.py].  [hashlib]'s SHA-256 is outside the repository:
    [hash_data] is any function from strings to strings. *)

Module Merkle.

Import Stdlib.Strings.String.

Section Tree.

Variable hash_data : string -> string.

Set Warnings "-register-all".

(** [class Node]: a hash value and two children, each possibly [None]. *)
Inductive Node : Type :=
| mkNode (hash_value : string) (left right : option Node).

Definition hash_value (n : Node) : string :=
  match n with mkNode h _ _ => h end.
Definition left (n : Node) : option Node :=
  match n with mkNode _ l _ => l end.
Definition right (n : Node) : option Node :=
  match n with mkNode _ _ r => r end.

(** One pass of the [for i in range(0, len(nodes), 2)] loop of
    [_build_tree]: the nodes are taken two at a time, and a last node
    without a partner is paired with itself. *)
Fixpoint build_level (nodes : list Node) : list Node :=
  match nodes with
  | [] => []
  | [l] =>
      [mkNode (hash_data (hash_value l ++ hash_value l)) (Some l) (Some l)]
  | l :: r :: rest =>
      mkNode (hash_data (hash_value l ++ hash_value r)) (Some l) (Some r)
      :: build_level rest
  end.

(** [while len(nodes) > 1: nodes = new_nodes], with a bound on the number
    of passes. *)
Fixpoint build_loop (fuel : nat) (nodes : list Node) : list Node :=
  match fuel with
  | O => nodes
  | S fuel' =>
      if (1 <? List.length nodes)%nat
      then build_loop fuel' (build_level nodes)
      else nodes
  end.

(** [MerkleTree._build_tree(self, leaf_hashes)]; as many passes as there
    are leaves are enough ([build_loop_enough] below). *)
Definition _build_tree (leaf_hashes : list string) : option Node :=
  let nodes := map (fun h => mkNode h None None) leaf_hashes in
  let nodes := build_loop (List.length nodes) nodes in
  hd_error nodes.

(** [class MerkleTree] *)
Record MerkleTree : Type := {
  leaves : list string;
  root : option Node
}.

(** [MerkleTree(leaves)] *)
Definition new_tree (leaves : list string) : MerkleTree :=
  let hashed := map hash_data leaves in
  {| leaves := hashed; root := _build_tree hashed |}.

(** [MerkleTree.get_root(self)] *)
Definition get_root (self : MerkleTree) : option string :=
  match root self with
  | Some n => Some (hash_value n)
  | None => None
  end.

(** [MerkleTree._search(self, node, leaf_hash)] on a node that is not
    [None]. *)
Fixpoint search_node (node : Node) (leaf_hash : string) : bool :=
  match node with
  | mkNode h l r =>
      if (h =? leaf_hash)%string then true
      else
        (match l with Some n => search_node n leaf_hash | None => false end)
        || (match r with Some n => search_node n leaf_hash | None => false end)
  end.

(** [MerkleTree._search(self, node, leaf_hash)] *)
Definition _search (node : option Node) (leaf_hash : string) : bool :=
  match node with
  | None => false
  | Some n => search_node n leaf_hash
  end.

(** [MerkleTree.search(self, leaf)] *)
Definition search (self : MerkleTree) (leaf : string) : bool :=
  let leaf_hash := hash_data leaf in
  match root self with
  | Some _ => _search (root self) leaf_hash
  | None => false
  end.

(** [sum(results)] on booleans: the number of [True]. *)
Definition sum_bools (results : list bool) : Z :=
  fold_left (fun acc (b : bool) => (acc + if b then 1 else 0)%Z) results 0%Z.

(** [concurrent_searches(tree, num_searches)].  Every submitted call is
    [tree.search(leaf)] on the same tree, which no call changes;
    [results] lists their values in the order of submission. *)
Definition concurrent_searches (tree : MerkleTree) (num_searches : Z) : Z :=
  let leaf := "EncEHR500"%string in
  let results := map (fun _ => search tree leaf) (range num_searches) in
  sum_bools results.

(** [str(i)] for [i >= 0]. *)
Definition str (i : nat) : string :=
  DecimalString.NilZero.string_of_uint (Nat.to_uint i).

(** [[f"EncEHR{i}" for i in range(num_leaves)]] in [throughput_test] *)
Definition ehr_leaves (num_leaves : Z) : list string :=
  map (fun i => ("EncEHR" ++ str i)%string) (range num_leaves).

(** Whether [h] is the hash value of a node of one of the trees. *)
Definition found (h : string) (nodes : list Node) : bool :=
  existsb (fun n => search_node n h) nodes.

End Tree.

(** A stand-in for the hash in examples: the identity. *)
Definition id_hash (data : string) : string := data.

End Merkle.

(** ** A concrete pairing group

    For a prime [q], the scalars are the integers modulo [q] and a group
    element is written by its discrete logarithm to a fixed generator:
    multiplication adds exponents, exponentiation multiplies them and the
    pairing of [G^a] and [G^b] is [e(G,G)^(a*b)]. *)

Module Toy.

Section Prime.

Variable q : Z.
Hypothesis q_prime : Z.prime q.

Lemma eqb_reflect (x y : Zmod q) : reflect (x = y) (Zmod.eqb x y).
Proof.
  apply iff_reflect. symmetry. apply Zmod.eqb_eq.
Qed.

Add Ring zmod_ring : (Zmod.ring_theory q).

Definition group : PairingGroup.
Proof.
  refine {| ZR := Zmod q; G1 := Zmod q; GT := Zmod q;
            zr0 := Zmod.zero; zr1 := Zmod.one;
            zr_add := Zmod.add; zr_mul := Zmod.mul; zr_sub := Zmod.sub;
            zr_opp := Zmod.opp; zr_div := Zmod.mdiv; zr_inv := Zmod.inv;
            zr_eqb := Zmod.eqb;
            g1_one := Zmod.zero; g1_mul := Zmod.add; g1_pow := Zmod.mul;
            gt_pow := Zmod.mul; gt_eqb := Zmod.eqb; pair := Zmod.mul;
            zr_field := Zmod.field_theory q q_prime;
            zr_eqb_spec := eqb_reflect;
            gt_eqb_spec := eqb_reflect |}; intros; ring.
Defined.

End Prime.

Lemma prime_13 : Z.prime 13.
Proof.
  split; [lia|].
  intros n Hn [k Hk].
  assert (0 < k < 13)%Z by nia.
  assert (n = 2 \/ n = 3 \/ n = 4 \/ n = 5 \/ n = 6 \/ n = 7 \/ n = 8 \/
          n = 9 \/ n = 10 \/ n = 11 \/ n = 12)%Z as Hc by lia.
  lia.
Qed.

(** The field of thirteen elements. *)
Definition F13 : PairingGroup := group 13 prime_13.

Definition z13 (z : Z) : @ZR F13 := Zmod.of_Z 13 z.

Definition poly13 (zs : list Z) : list (@ZR F13) := map z13 zs.

(** Coins of a run of [setup] with a non-zero target coefficient. *)
Definition rnd13 : @coins F13 :=
  {| rnd_s := z13 5; rnd_alpha := z13 7; rnd_g := z13 3; rnd_t := z13 4 |}.

(** Coins of a run of [setup] in which the target coefficient drawn is 0. *)
Definition rnd13_zero : @coins F13 :=
  {| rnd_s := z13 5; rnd_alpha := z13 7; rnd_g := z13 3; rnd_t := z13 0 |}.

(** An object whose target polynomial is [1 + x], of degree bound 0. *)
Definition self13_linear : @MJ18 F13 :=
  {| self_d := 0; self_s := Some (z13 5); self_alpha := Some (z13 7);
     self_g := Some (z13 3); self_t_coeffs := Some (poly13 [1; 1]%Z) |}.

End Toy.

(** ** Loops and list accesses *)

Section Loops.

Variable St : Type.
Variable body : nat -> St -> result St.

(** A loop over [a, a+1, ..., a+n-1] that keeps an invariant runs to its
    end. *)
Lemma foldM_seq_inv (Inv : nat -> St -> Prop) n : forall a s,
  Inv a s ->
  (forall i s, a <= i < a + n -> Inv i s ->
     exists s', body i s = Ok s' /\ Inv (S i) s') ->
  exists s', foldM body (seq a n) s = Ok s' /\ Inv (a + n) s'.
Proof.
  induction n as [|n IH]; intros a s H0 Hstep; simpl.
  - exists s. rewrite Nat.add_0_r. auto.
  - destruct (Hstep a s) as (s1 & E1 & H1); [lia | assumption |].
    rewrite E1.
    destruct (IH (S a) s1) as (s2 & E2 & H2); trivial.
    + intros i s' Hi. apply Hstep. lia.
    + exists s2. split; trivial.
      replace (a + S n) with (S a + n) by lia. trivial.
Qed.

(** A loop that keeps an invariant up to index [m], where the body raises,
    raises the same exception. *)
Lemma foldM_seq_raise (Inv : nat -> St -> Prop) e m n : forall a s,
  a <= m < a + n ->
  Inv a s ->
  (forall i s, a <= i < m -> Inv i s ->
     exists s', body i s = Ok s' /\ Inv (S i) s') ->
  (forall s, Inv m s -> body m s = Raise e) ->
  foldM body (seq a n) s = Raise e.
Proof.
  induction n as [|n IH]; intros a s Hm H0 Hstep Hraise; simpl; [lia|].
  destruct (Nat.eq_dec a m) as [->|Hne].
  - rewrite (Hraise s H0). reflexivity.
  - destruct (Hstep a s) as (s1 & E1 & H1); [lia | assumption |].
    rewrite E1. apply IH; trivial; [lia|].
    intros i s' Hi. apply Hstep. lia.
Qed.

(** Whatever a loop returns satisfies an invariant its body preserves. *)
Lemma foldM_seq_returns (Inv : nat -> St -> Prop) n : forall a s s',
  Inv a s ->
  (forall i s s', a <= i < a + n -> Inv i s -> body i s = Ok s' ->
     Inv (S i) s') ->
  foldM body (seq a n) s = Ok s' ->
  Inv (a + n) s'.
Proof.
  induction n as [|n IH]; intros a s s' H0 Hstep E; simpl in E.
  - inversion E; subst. rewrite Nat.add_0_r. exact H0.
  - destruct (body a s) as [s1|e] eqn:E1; [|discriminate].
    replace (a + S n) with (S a + n) by lia.
    apply (IH (S a) s1 s'); trivial.
    + apply (Hstep a s); trivial. lia.
    + intros i s2 s3 Hi. apply Hstep. lia.
Qed.

Lemma for_range_returns (Inv : nat -> St -> Prop) (n : Z) s s' :
  Inv 0 s ->
  (forall i s s', i < Z.to_nat n -> Inv i s -> body i s = Ok s' ->
     Inv (S i) s') ->
  for_range n body s = Ok s' ->
  Inv (Z.to_nat n) s'.
Proof.
  intros H0 Hstep E. unfold for_range, range in E.
  apply foldM_seq_returns with (Inv := Inv) (a := 0) (s := s) in E; trivial.
  intros i s1 s2 Hi. apply Hstep. lia.
Qed.

(** A loop whose body, under an invariant, either goes on or raises an
    exception satisfying [P] ends in one of these two ways. *)
Lemma foldM_seq_cases (Inv : nat -> St -> Prop) (P : exn -> Prop) n :
  forall a s,
  Inv a s ->
  (forall i s, a <= i < a + n -> Inv i s ->
     (exists s', body i s = Ok s' /\ Inv (S i) s') \/
     (exists e, body i s = Raise e /\ P e)) ->
  (exists s', foldM body (seq a n) s = Ok s' /\ Inv (a + n) s') \/
  (exists e, foldM body (seq a n) s = Raise e /\ P e).
Proof.
  induction n as [|n IH]; intros a s H0 Hstep; simpl.
  - left. exists s. rewrite Nat.add_0_r. auto.
  - destruct (Hstep a s) as [(s1 & E1 & H1) | (e & E1 & He)];
      [lia | assumption | |].
    + rewrite E1.
      replace (a + S n) with (S a + n) by lia.
      apply IH; trivial.
      intros i s' Hi. apply Hstep. lia.
    + rewrite E1. right. exists e. auto.
Qed.

Lemma for_range_cases (Inv : nat -> St -> Prop) (P : exn -> Prop) (n : Z) s :
  Inv 0 s ->
  (forall i s, i < Z.to_nat n -> Inv i s ->
     (exists s', body i s = Ok s' /\ Inv (S i) s') \/
     (exists e, body i s = Raise e /\ P e)) ->
  (exists s', for_range n body s = Ok s' /\ Inv (Z.to_nat n) s') \/
  (exists e, for_range n body s = Raise e /\ P e).
Proof.
  intros H0 Hstep. unfold for_range, range.
  apply foldM_seq_cases with (Inv := Inv) (a := 0); trivial.
  intros i s' Hi. apply Hstep. lia.
Qed.

Lemma for_range_inv (Inv : nat -> St -> Prop) (n : Z) s :
  Inv 0 s ->
  (forall i s, i < Z.to_nat n -> Inv i s ->
     exists s', body i s = Ok s' /\ Inv (S i) s') ->
  exists s', for_range n body s = Ok s' /\ Inv (Z.to_nat n) s'.
Proof.
  intros H0 Hstep. unfold for_range, range.
  apply foldM_seq_inv with (Inv := Inv) (a := 0); trivial.
  intros i s' Hi. apply Hstep. lia.
Qed.

Lemma for_range_raise (Inv : nat -> St -> Prop) e m (n : Z) s :
  m < Z.to_nat n ->
  Inv 0 s ->
  (forall i s, i < m -> Inv i s ->
     exists s', body i s = Ok s' /\ Inv (S i) s') ->
  (forall s, Inv m s -> body m s = Raise e) ->
  for_range n body s = Raise e.
Proof.
  intros Hm H0 Hstep Hraise. unfold for_range, range.
  apply foldM_seq_raise with (Inv := Inv) (m := m); trivial; [lia|].
  intros i s' Hi. apply Hstep. lia.
Qed.

End Loops.

Section Lists.

Variable A : Type.

Lemma getitem_ok (l : list A) i dflt :
  i < length l -> getitem l i = Ok (nth i l dflt).
Proof.
  intros H. unfold getitem.
  rewrite (nth_error_nth' l dflt H). reflexivity.
Qed.

Lemma getitem_raise (l : list A) i :
  length l <= i -> getitem l i = Raise IndexError.
Proof.
  intros H. unfold getitem.
  apply nth_error_None in H. rewrite H. reflexivity.
Qed.

Lemma setitem_ok (l : list A) i v :
  i < length l -> setitem l i v = Ok (replace_nth l i v).
Proof.
  intros H. unfold setitem.
  apply Nat.ltb_lt in H. rewrite H. reflexivity.
Qed.

Lemma replace_nth_length (l : list A) : forall i v,
  length (replace_nth l i v) = length l.
Proof.
  induction l as [|x l IH]; intros [|i] v; simpl; auto.
Qed.

Lemma nth_replace_nth (l : list A) dflt : forall i k v,
  i < length l ->
  nth k (replace_nth l i v) dflt = if k =? i then v else nth k l dflt.
Proof.
  induction l as [|x l IH]; intros [|i] [|k] v H; simpl in *;
    try lia; try reflexivity.
  apply IH. lia.
Qed.

End Lists.

(** ** Polynomial engine: coefficients, convolution, multiplication *)

Section PolynomialFacts.

Context {PG : PairingGroup}.

Local Open Scope zr_scope.

Lemma zr_ring : ring_theory zr0 zr1 zr_add zr_mul zr_sub zr_opp eq.
Proof. exact (F_R zr_field). Qed.

Add Field zr_field_tac : zr_field.

Lemma zr_eqb_true x y : (x == y) = true <-> x = y.
Proof. destruct (zr_eqb_spec x y); split; congruence. Qed.

Lemma zr_eqb_false x y : (x == y) = false <-> x <> y.
Proof. destruct (zr_eqb_spec x y); split; congruence. Qed.

Lemma zr_eqb_refl x : (x == x) = true.
Proof. apply zr_eqb_true. reflexivity. Qed.

Lemma zr1_neq_zr0 : zr1 <> zr0.
Proof. exact (F_1_neq_0 zr_field). Qed.

Lemma bigsum_ext f h n :
  (forall i, i < n -> f i = h i) -> bigsum f n = bigsum h n.
Proof.
  induction n as [|n IH]; intros H; simpl; [reflexivity|].
  rewrite IH, (H n); auto.
Qed.

Lemma bigsum_zero n : bigsum (fun _ => zr0) n = zr0.
Proof. induction n as [|n IH]; simpl; [reflexivity|]. rewrite IH. ring. Qed.

Lemma bigsum_add f h n :
  bigsum (fun i => f i + h i) n = bigsum f n + bigsum h n.
Proof. induction n as [|n IH]; simpl; [ring|]. rewrite IH. ring. Qed.

Lemma bigsum_scale c f n :
  bigsum (fun i => c * f i) n = c * bigsum f n.
Proof. induction n as [|n IH]; simpl; [ring|]. rewrite IH. ring. Qed.

(** A sum whose only non-zero term is at index [i]. *)
Lemma bigsum_single i v n :
  bigsum (fun k => if k =? i then v else zr0) n = if i <? n then v else zr0.
Proof.
  induction n as [|n IH]; simpl; [reflexivity|].
  rewrite IH.
  destruct (Nat.ltb_spec i n), (Nat.eqb_spec n i), (Nat.ltb_spec i (S n));
    try lia; ring.
Qed.

Lemma coef_overflow l k : length l <= k -> coef l k = zr0.
Proof. intros H. apply nth_overflow. exact H. Qed.

Lemma coef_zeros (l : list nat) k : coef (map (fun _ => zr0) l) k = zr0.
Proof.
  unfold coef. revert k. induction l as [|x l IH]; intros [|k]; simpl; auto.
Qed.

Lemma coef_replace_nth l i k v :
  i < length l ->
  coef (replace_nth l i v) k = if k =? i then v else coef l k.
Proof. intros H. unfold coef. apply nth_replace_nth. exact H. Qed.

Lemma conv_pairs_eq (a b : list ZR) k : conv_pairs a b k = conv a b k.
Proof.
  unfold conv_pairs, conv. apply bigsum_ext. intros i _.
  rewrite (bigsum_ext _
    (fun j => if j =? k - i
              then (if i <=? k then coef a i * coef b (k - i) else zr0)
              else zr0)).
  - rewrite bigsum_single.
    destruct (Nat.ltb_spec (k - i)%nat (length b)); [reflexivity|].
    rewrite (coef_overflow b) by lia. destruct (i <=? k); ring.
  - intros j _.
    destruct (Nat.eqb_spec (i + j)%nat k), (Nat.eqb_spec j (k - i)%nat),
             (Nat.leb_spec i k); try lia; try reflexivity.
    subst. replace (i + j - i)%nat with j by lia. reflexivity.
Qed.

Lemma getitem_coef l i : i < length l -> getitem l i = Ok (coef l i).
Proof. intros H. apply getitem_ok. exact H. Qed.

Lemma to_nat_len (A : Type) (l : list A) : Z.to_nat (len l) = length l.
Proof. unfold len. apply Nat2Z.id. Qed.

Lemma length_zeros (n : Z) :
  length (map (fun _ : nat => zr0) (range n)) = Z.to_nat n.
Proof. unfold range. rewrite length_map, length_seq. reflexivity. Qed.

(** The inner loop of [polynomial_multiply] at row [i] adds [a[i] * b[j]]
    to entry [i + j] for every [j]. *)
Lemma multiply_row (a b : list ZR) i res :
  i < length a ->
  i + length b <= length res ->
  exists res',
    for_range (len b) (fun j result =>
      r <- getitem result (i + j) ;;
      ai <- getitem a i ;;
      bj <- getitem b j ;;
      setitem result (i + j) (r + ai * bj)) res = Ok res' /\
    length res' = length res /\
    forall k, coef res' k =
              coef res k + (if i <=? k then coef a i * coef b (k - i) else zr0).
Proof.
  intros Hi Hres.
  destruct (for_range_inv _
    (fun j result =>
      r <- getitem result (i + j) ;;
      ai <- getitem a i ;;
      bj <- getitem b j ;;
      setitem result (i + j) (r + ai * bj))
    (fun m r => length r = length res /\
       forall k, coef r k = coef res k +
         (if (i <=? k) && (k - i <? m) then coef a i * coef b (k - i) else zr0))
    (len b) res) as (res' & E & Hlen & Hcoef).
  - split; [reflexivity|]. intros k. rewrite andb_false_r. ring.
  - intros j r Hj [Hlen Hcoef]. rewrite to_nat_len in Hj.
    rewrite (getitem_coef r), (getitem_coef a), (getitem_coef b) by lia.
    simpl. rewrite setitem_ok by lia.
    eexists; split; [reflexivity|]. split.
    + rewrite replace_nth_length. exact Hlen.
    + intros k. rewrite coef_replace_nth by lia. rewrite !Hcoef.
      destruct (Nat.eqb_spec k (i + j)%nat) as [->|Hk].
      * replace (i + j - i)%nat with j by lia.
        destruct (Nat.leb_spec i (i + j)%nat); [|lia].
        rewrite Nat.ltb_irrefl.
        destruct (Nat.ltb_spec j (S j)); [|lia]. simpl. ring.
      * destruct (Nat.leb_spec i k); simpl; [|reflexivity].
        destruct (Nat.ltb_spec (k - i)%nat j), (Nat.ltb_spec (k - i)%nat (S j));
          try lia; reflexivity.
  - exists res'. rewrite to_nat_len in Hcoef. repeat split; trivial.
    intros k. rewrite Hcoef.
    destruct (Nat.leb_spec i k); simpl; [|reflexivity].
    destruct (Nat.ltb_spec (k - i)%nat (length b)); [reflexivity|].
    rewrite (coef_overflow b) by lia. ring.
Qed.

(** [polynomial_multiply] never raises; it returns the convolution, in a
    list of [len(a) + len(b) - 1] entries (none when that is negative). *)
Lemma multiply_spec (a b : list ZR) :
  exists r,
    polynomial_multiply a b = Ok r /\
    length r = Z.to_nat (len a + len b - 1) /\
    forall k, coef r k = conv a b k.
Proof.
  unfold polynomial_multiply.
  set (res0 := map (fun _ => zr0) (range (len a + len b - 2 + 1))).
  assert (Hlen0 : length res0 = Z.to_nat (len a + len b - 1)).
  { unfold res0. rewrite length_zeros. f_equal. lia. }
  destruct (for_range_inv _
    (fun i result =>
      for_range (len b) (fun j result =>
        r <- getitem result (i + j) ;;
        ai <- getitem a i ;;
        bj <- getitem b j ;;
        setitem result (i + j) (r + ai * bj)) result)
    (fun m r => length r = length res0 /\
       forall k, coef r k =
         bigsum (fun i => if i <=? k then coef a i * coef b (k - i) else zr0) m)
    (len a) res0) as (r & E & Hlen & Hcoef).
  - split; [reflexivity|]. intros k. unfold res0. apply coef_zeros.
  - intros i r Hi [Hlen Hcoef]. rewrite to_nat_len in Hi.
    destruct (multiply_row a b i r) as (r' & E' & Hlen' & Hcoef');
      [lia | rewrite Hlen, Hlen0; unfold len; lia |].
    exists r'. split; [exact E'|]. split; [congruence|].
    intros k. rewrite Hcoef', Hcoef. reflexivity.
  - exists r. rewrite to_nat_len in Hcoef. split; [exact E|].
    split; [congruence|]. exact Hcoef.
Qed.

End PolynomialFacts.

(** ** Polynomial engine: long division *)

Section DivisionFacts.

Context {PG : PairingGroup}.

Local Open Scope zr_scope.

Add Field zr_field_div : zr_field.

(** The inner loop of [polynomial_division] subtracts [coef * t[j]] from
    entry [i + j] for every [j]. *)
Lemma division_row (t : list ZR) c i rem :
  (i + length t <= length rem)%nat ->
  exists rem',
    for_range (len t) (fun j remainder =>
      r <- getitem remainder (i + j) ;;
      tj <- getitem t j ;;
      setitem remainder (i + j) (r - c * tj)) rem = Ok rem' /\
    length rem' = length rem /\
    forall k, coef rem' k =
              coef rem k - (if i <=? k then c * coef t (k - i) else zr0).
Proof.
  intros Hrem.
  destruct (for_range_inv _
    (fun j remainder =>
      r <- getitem remainder (i + j) ;;
      tj <- getitem t j ;;
      setitem remainder (i + j) (r - c * tj))
    (fun m r => length r = length rem /\
       forall k, coef r k = coef rem k -
         (if (i <=? k) && (k - i <? m) then c * coef t (k - i) else zr0))
    (len t) rem) as (rem' & E & Hlen & Hcoef).
  - split; [reflexivity|]. intros k. rewrite andb_false_r. ring.
  - intros j r Hj [Hlen Hcoef]. rewrite to_nat_len in Hj.
    rewrite (getitem_coef r), (getitem_coef t) by lia.
    simpl. rewrite setitem_ok by lia.
    eexists; split; [reflexivity|]. split.
    + rewrite replace_nth_length. exact Hlen.
    + intros k. rewrite coef_replace_nth by lia. rewrite !Hcoef.
      destruct (Nat.eqb_spec k (i + j)%nat) as [->|Hk].
      * replace (i + j - i)%nat with j by lia.
        destruct (Nat.leb_spec i (i + j)%nat); [|lia].
        rewrite Nat.ltb_irrefl.
        destruct (Nat.ltb_spec j (S j)); [|lia]. simpl. ring.
      * destruct (Nat.leb_spec i k); simpl; [|reflexivity].
        destruct (Nat.ltb_spec (k - i)%nat j), (Nat.ltb_spec (k - i)%nat (S j));
          try lia; reflexivity.
  - exists rem'. rewrite to_nat_len in Hcoef. repeat split; trivial.
    intros k. rewrite Hcoef.
    destruct (Nat.leb_spec i k); simpl; [|reflexivity].
    destruct (Nat.ltb_spec (k - i)%nat (length t)); [reflexivity|].
    rewrite (coef_overflow t) by lia. ring.
Qed.

Lemma division_step_spec (t : list ZR) i q rem :
  (0 < length t)%nat ->
  (i < length q)%nat ->
  (i + length t <= length rem)%nat ->
  step_outcome t i q rem (division_step t i (q, rem)).
Proof.
  intros Ht Hq Hrem. unfold division_step.
  rewrite (getitem_coef rem) by lia. simpl.
  destruct (zr_eqb_spec (coef rem i) zr0) as [Hz|Hnz].
  - apply step_continue. exact Hz.
  - rewrite (getitem_coef t) by lia. simpl.
    rewrite setitem_ok by lia. simpl.
    destruct (division_row t (coef rem i / coef t 0) i rem)
      as (rem' & E & Hlen & Hcoef); [lia|].
    rewrite E. simpl. apply step_reduce; assumption.
Qed.

(** Storing a coefficient in an empty slot of the quotient adds one row to
    the convolution. *)
Lemma conv_replace_nth (q t : list ZR) i c k :
  (i < length q)%nat ->
  coef q i = zr0 ->
  conv (replace_nth q i c) t k =
  conv q t k + (if i <=? k then c * coef t (k - i) else zr0).
Proof.
  intros Hi Hq. unfold conv. rewrite replace_nth_length.
  rewrite (bigsum_ext
    (fun j => if j <=? k
              then coef (replace_nth q i c) j * coef t (k - j) else zr0)
    (fun j => (if j <=? k then coef q j * coef t (k - j) else zr0) +
              (if j =? i
               then (if i <=? k then c * coef t (k - i) else zr0)
               else zr0))).
  - rewrite bigsum_add, bigsum_single.
    destruct (Nat.ltb_spec i (length q)); [reflexivity|lia].
  - intros j _. rewrite coef_replace_nth by exact Hi.
    destruct (Nat.eqb_spec j i) as [->|Hj].
    + rewrite Hq. destruct (i <=? k); ring.
    + ring.
Qed.

(** *** Trimming *)

Lemma drop_zeros_split (l : list ZR) :
  exists n, l = repeat zr0 n ++ drop_zeros l.
Proof.
  induction l as [|x l [n IH]]; simpl.
  - exists 0%nat. reflexivity.
  - destruct (zr_eqb_spec x zr0) as [->|Hx].
    + exists (S n). simpl. f_equal. exact IH.
    + exists 0%nat. reflexivity.
Qed.

Lemma trim_split (l : list ZR) :
  exists n, l = trim l ++ repeat zr0 n.
Proof.
  destruct (drop_zeros_split (rev l)) as [n E].
  exists n. unfold trim.
  rewrite <- (rev_involutive l) at 1. rewrite E at 1.
  rewrite rev_app_distr. f_equal.
  clear E. induction n as [|n IH]; simpl; [reflexivity|].
  rewrite IH. clear IH.
  induction n as [|n IH]; simpl; [reflexivity|]. f_equal. exact IH.
Qed.

Lemma coef_app_zeros (l : list ZR) n k :
  coef (l ++ repeat zr0 n) k = coef l k.
Proof.
  unfold coef. destruct (Nat.lt_ge_cases k (length l)) as [H|H].
  - apply app_nth1. exact H.
  - rewrite app_nth2 by exact H. rewrite (nth_overflow l) by exact H.
    apply nth_repeat.
Qed.

(** Popping the zeros at the end changes no coefficient. *)
Lemma coef_trim (l : list ZR) k : coef (trim l) k = coef l k.
Proof.
  destruct (trim_split l) as [n E].
  rewrite E at 2. symmetry. apply coef_app_zeros.
Qed.

Lemma drop_zeros_all_zero (l : list ZR) :
  (forall x, In x l -> x = zr0) -> drop_zeros l = [].
Proof.
  induction l as [|x l IH]; intros H; simpl; [reflexivity|].
  rewrite (H x) by (left; reflexivity).
  rewrite zr_eqb_refl. apply IH. intros y Hy. apply H. right. exact Hy.
Qed.

(** A list of zeros is popped down to the empty list. *)
Lemma trim_all_zero (l : list ZR) :
  (forall k, (k < length l)%nat -> coef l k = zr0) -> trim l = [].
Proof.
  intros H. unfold trim. rewrite drop_zeros_all_zero; [reflexivity|].
  intros x Hx. apply in_rev in Hx.
  destruct (In_nth l x zr0 Hx) as (k & Hk & E).
  rewrite <- E. apply H. exact Hk.
Qed.

Lemma drop_zeros_idem (l : list ZR) :
  drop_zeros (drop_zeros l) = drop_zeros l.
Proof.
  induction l as [|x l IH]; simpl; [reflexivity|].
  destruct (x == zr0) eqn:E; [exact IH|]. simpl. rewrite E. reflexivity.
Qed.

Lemma trim_idem (l : list ZR) : trim (trim l) = trim l.
Proof.
  unfold trim. rewrite rev_involutive, drop_zeros_idem. reflexivity.
Qed.

Lemma all_zero_spec (t : list ZR) :
  all_zero t = true <-> forall c, In c t -> c = zr0.
Proof.
  unfold all_zero. rewrite forallb_forall.
  split; intros H c Hc; apply zr_eqb_true, H, Hc.
Qed.

(** The guard at the head of [polynomial_division]. *)
Lemma guard_spec (t : list ZR) :
  (len t =? 0)%Z || all_zero t = true <->
  t = [] \/ forall c, In c t -> c = zr0.
Proof.
  rewrite orb_true_iff, all_zero_spec, Z.eqb_eq. unfold len.
  split; (intros [H|H]; [left | right; exact H]).
  - destruct t; [reflexivity | simpl in H; lia].
  - subst. reflexivity.
Qed.

Lemma conv_zeros (l : list nat) (t : list ZR) k :
  conv (map (fun _ => zr0) l) t k = zr0.
Proof.
  unfold conv.
  rewrite (bigsum_ext _ (fun _ => zr0)); [apply bigsum_zero|].
  intros i _. rewrite coef_zeros. destruct (i <=? k); ring.
Qed.

(** *** The division loop *)

Lemma division_inv_init (p t : list ZR) :
  division_inv p t 0
    (map (fun _ => zr0) (range (len p - len t + 1)), p).
Proof.
  unfold division_inv. split; [apply length_zeros|].
  split; [reflexivity|]. split; [|split].
  - intros k. rewrite conv_zeros. ring.
  - intros k _. apply coef_zeros.
  - intros k Hk. lia.
Qed.

Lemma division_inv_step (p t : list ZR) i qr :
  (0 < length t)%nat ->
  (i < Z.to_nat (len p - len t + 1))%nat ->
  division_inv p t i qr ->
  exists qr', division_step t i qr = Ok qr' /\ division_inv p t (S i) qr'.
Proof.
  intros Ht Hi. destruct qr as [q rem].
  intros (Hq & Hrem & Hex & Hq0 & Hr0).
  assert (Hrange : (i + length t <= length rem)%nat).
  { rewrite Hrem. unfold len in Hi. lia. }
  destruct (division_step_spec t i q rem Ht) as [Hz | rem' Hnz Hlen Hco];
    [lia | exact Hrange | |].
  - exists (q, rem). split; [reflexivity|].
    repeat split; trivial.
    + intros k Hk. apply Hq0. lia.
    + intros Ht0 k Hk. destruct (Nat.eq_dec k i) as [->|Hne]; [exact Hz|].
      apply Hr0; [exact Ht0 | lia].
  - eexists. split; [reflexivity|].
    unfold division_inv. rewrite replace_nth_length.
    split; [exact Hq|]. split; [congruence|]. split; [|split].
    + intros k. rewrite conv_replace_nth by (try apply Hq0; lia).
      rewrite Hco, <- (Hex k). destruct (i <=? k); ring.
    + intros k Hk. rewrite coef_replace_nth by lia.
      destruct (Nat.eqb_spec k i); [lia|]. apply Hq0. lia.
    + intros Ht0 k Hk. rewrite Hco.
      destruct (Nat.eq_dec k i) as [->|Hne].
      * rewrite Nat.leb_refl, Nat.sub_diag. field. exact Ht0.
      * destruct (Nat.leb_spec i k); [lia|]. rewrite Hr0 by (trivial; lia). ring.
Qed.

Lemma division_cases (p t : list ZR) :
  division_outcome p t (polynomial_division p t).
Proof.
  unfold polynomial_division.
  destruct ((len t =? 0)%Z || all_zero t) eqn:G.
  - apply division_invalid, guard_spec, G.
  - assert (Hnot : ~ (t = [] \/ forall c, In c t -> c = zr0)).
    { intros H. apply guard_spec in H. congruence. }
    assert (Ht : (0 < length t)%nat).
    { destruct t; [exfalso; apply Hnot; left; reflexivity | simpl; lia]. }
    destruct (for_range_inv _ (division_step t) (division_inv p t)
                (len p - len t + 1)
                (map (fun _ => zr0) (range (len p - len t + 1)), p))
      as ([q rem] & E & HI).
    + apply division_inv_init.
    + intros i qr Hi HI. apply division_inv_step; assumption.
    + rewrite E. simpl. apply division_returns; trivial.
      * intros ->. simpl in Ht. lia.
      * tauto.
Qed.

(** The division returns for every divisor that passes the guard. *)
Lemma division_nonzero_returns (p t : list ZR) :
  (exists c, In c t /\ c <> zr0) ->
  exists q r, polynomial_division p t = Ok (q, r).
Proof.
  intros (c & Hc & Hnz).
  destruct (division_cases p t) as [[->|Hz] | q rem _ _ _].
  - destruct Hc.
  - exfalso. apply Hnz, Hz, Hc.
  - eauto.
Qed.

(** With a non-zero constant coefficient in [t] the division returns. *)
Lemma division_total (p t : list ZR) :
  coef t 0 <> zr0 ->
  exists q r, polynomial_division p t = Ok (q, r).
Proof.
  intros Ht0. apply division_nonzero_returns.
  destruct t as [|c t]; [exfalso; apply Ht0; reflexivity|].
  exists c. split; [left; reflexivity | exact Ht0].
Qed.

(** Whenever the division returns, quotient times divisor plus remainder
    is the dividend, coefficient by coefficient, and the quotient has
    [len(p) - len(t) + 1] entries; with a non-zero constant coefficient in
    [t] the remainder has no term below that index. *)
Lemma division_exact (p t q r : list ZR) :
  polynomial_division p t = Ok (q, r) ->
  length q = Z.to_nat (len p - len t + 1) /\
  (forall k, conv q t k + coef r k = coef p k) /\
  (coef t 0 <> zr0 -> forall k, (k < length q)%nat -> coef r k = zr0) /\
  trim r = r.
Proof.
  intros E.
  destruct (division_cases p t) as [ | q' rem _ _ HI]; try discriminate.
  injection E as <- <-.
  destruct HI as (Hq & Hrem & Hex & _ & Hr0).
  split; [exact Hq|]. split; [|split].
  - intros k. rewrite coef_trim. apply Hex.
  - intros Ht0 k Hk. rewrite coef_trim. apply Hr0; [exact Ht0 | lia].
  - apply trim_idem.
Qed.

(** The first non-zero coefficient among the first [n]. *)
Lemma first_nonzero (p : list ZR) n :
  (forall i, (i < n)%nat -> coef p i = zr0) \/
  (exists m, (m < n)%nat /\ coef p m <> zr0 /\
             forall i, (i < m)%nat -> coef p i = zr0).
Proof.
  induction n as [|n [IH | IH]].
  - left. intros i Hi. lia.
  - destruct (zr_eqb_spec (coef p n) zr0) as [Hz|Hnz].
    + left. intros i Hi. destruct (Nat.eq_dec i n) as [->|Hne]; [exact Hz|].
      apply IH. lia.
    + right. exists n. auto.
  - right. destruct IH as (m & Hm & Hnz & Hlow). exists m. auto.
Qed.

Lemma conv_constant (q : list ZR) (t0 : ZR) k :
  conv q [t0] k = coef q k * t0.
Proof.
  unfold conv.
  rewrite (bigsum_ext _ (fun i => if i =? k then coef q k * t0 else zr0)).
  - rewrite bigsum_single.
    destruct (Nat.ltb_spec k (length q)); [reflexivity|].
    rewrite (coef_overflow q) by lia. ring.
  - intros i _.
    destruct (Nat.leb_spec i k), (Nat.eqb_spec i k); try lia.
    + subst. rewrite Nat.sub_diag. reflexivity.
    + rewrite (coef_overflow [t0]) by (simpl; lia). ring.
    + reflexivity.
Qed.

Lemma coef_ext (l1 l2 : list ZR) :
  length l1 = length l2 ->
  (forall k, coef l1 k = coef l2 k) ->
  l1 = l2.
Proof.
  intros Hlen H. apply (nth_ext l1 l2 zr0 zr0 Hlen).
  intros n _. apply H.
Qed.

(** Division by a non-zero constant: every coefficient is divided and
    nothing remains. *)
Lemma division_constant (p : list ZR) (t0 : ZR) :
  t0 <> zr0 ->
  exists q,
    polynomial_division p [t0] = Ok (q, []) /\
    length q = length p /\
    forall k, coef q k * t0 = coef p k.
Proof.
  intros Ht0.
  destruct (division_total p [t0] Ht0) as (q & r & E).
  destruct (division_exact p [t0] q r E) as (Hq & Hex & Hr0 & Htrim).
  specialize (Hr0 Ht0).
  assert (Hlen : length q = length p) by (rewrite Hq; unfold len; simpl; lia).
  pose proof (conv_constant q t0) as Hconv.
  assert (Hr : r = []).
  { rewrite <- Htrim. apply trim_all_zero. intros k Hk.
    destruct (Nat.lt_ge_cases k (length q)) as [H|H]; [apply Hr0, H|].
    specialize (Hex k). rewrite Hconv in Hex.
    rewrite (coef_overflow q), (coef_overflow p) in Hex by lia.
    rewrite <- Hex. ring. }
  subst r. exists q. split; [exact E|]. split; [exact Hlen|].
  intros k. specialize (Hex k). rewrite Hconv in Hex. rewrite <- Hex.
  unfold coef at 3. destruct k; simpl; ring.
Qed.

End DivisionFacts.

(** ** The scheme: commitments, [setup] and [prove] *)

Section SchemeFacts.

Context {PG : PairingGroup}.

Local Open Scope zr_scope.

Add Field zr_field_scheme : zr_field.

Lemma range_of_nat (n : nat) : range (Z.of_nat n) = seq 0 n.
Proof. unfold range. rewrite Nat2Z.id. reflexivity. Qed.

Lemma range_succ (n : nat) : range (Z.of_nat n + 1) = seq 0 (S n).
Proof. unfold range. f_equal. lia. Qed.

Lemma getitem_map_seq (A : Type) (f : nat -> A) N i :
  (i < N)%nat -> getitem (map f (seq 0 N)) i = Ok (f i).
Proof.
  intros H. rewrite (getitem_ok _ _ _ (f 0%nat)).
  - rewrite map_nth, seq_nth by exact H. reflexivity.
  - rewrite length_map, length_seq. exact H.
Qed.

Lemma getitem_map_seq_raise (A : Type) (f : nat -> A) N i :
  (N <= i)%nat -> getitem (map f (seq 0 N)) i = Raise IndexError.
Proof.
  intros H. apply getitem_raise. rewrite length_map, length_seq. exact H.
Qed.

Lemma fold_left_add_bigsum (h : nat -> ZR) n acc :
  fold_left zr_add (map h (seq 0 n)) acc = acc + bigsum h n.
Proof.
  induction n as [|n IH]; simpl bigsum.
  - simpl. ring.
  - rewrite seq_S, map_app, fold_left_app, IH. simpl. ring.
Qed.

Lemma py_sum_bigsum (h : nat -> ZR) n :
  py_sum (map h (seq 0 n)) = bigsum h n.
Proof. unfold py_sum. rewrite fold_left_add_bigsum. ring. Qed.

Lemma mapM_ok (A B : Type) (f : A -> result B) (h : A -> B) l :
  (forall a, In a l -> f a = Ok (h a)) -> mapM f l = Ok (map h l).
Proof.
  induction l as [|a l IH]; intros H; simpl; [reflexivity|].
  rewrite (H a) by (left; reflexivity). simpl.
  rewrite IH by (intros b Hb; apply H; right; exact Hb). reflexivity.
Qed.

(** The value of [sum(p[i] * (s ** i) for i in range(len(p)))] when
    [self.s] is set. *)
Lemma eval_terms (p : list ZR) (s : ZR) :
  mapM (fun i =>
      pi <- getitem p i ;;
      s <- getattr (Some s) ;;
      Ok (pi * zr_pown s i)) (range (len p))
  = Ok (map (fun i => coef p i * zr_pown s i) (seq 0 (length p))).
Proof.
  unfold len. rewrite range_of_nat. apply mapM_ok.
  intros i Hi. apply in_seq in Hi.
  rewrite getitem_coef by lia. reflexivity.
Qed.

(** A commitment loop over the powers [g ** e(i)] multiplies out to one
    exponentiation. *)
Lemma commit_ok (g : G1) (e : nat -> ZR) N n (c : list ZR) :
  (n <= N)%nat -> (n <= length c)%nat ->
  commit (Z.of_nat n) (map (fun i => g1_pow g (e i)) (seq 0 N)) c
  = Ok (g1_pow g (bigsum (fun i => e i * coef c i) n)).
Proof.
  intros HN Hc. unfold commit.
  destruct (for_range_inv _
    (fun i acc =>
       b <- getitem (map (fun i => g1_pow g (e i)) (seq 0 N)) i ;;
       ci <- getitem c i ;;
       Ok (g1_mul acc (g1_pow b ci)))
    (fun m acc => acc = g1_pow g (bigsum (fun i => e i * coef c i) m))
    (Z.of_nat n) g1_one) as (acc & E & HI).
  - simpl. symmetry. apply g1_pow_zero.
  - intros i acc Hi ->. rewrite Nat2Z.id in Hi.
    rewrite getitem_map_seq, getitem_coef by lia. simpl.
    eexists. split; [reflexivity|].
    rewrite g1_pow_pow, <- g1_pow_add. reflexivity.
  - rewrite E, HI, Nat2Z.id. reflexivity.
Qed.

(** A commitment loop that runs past the end of the powers or of the
    coefficients raises [IndexError]. *)
Lemma commit_raise (g : G1) (e : nat -> ZR) N n (c : list ZR) :
  (N < n \/ length c < n)%nat ->
  commit (Z.of_nat n) (map (fun i => g1_pow g (e i)) (seq 0 N)) c
  = Raise IndexError.
Proof.
  intros H. unfold commit.
  apply (for_range_raise _ _ (fun _ _ => True) IndexError
           (Nat.min N (length c))).
  - lia.
  - exact I.
  - intros i acc Hi _.
    rewrite getitem_map_seq, getitem_coef by lia. simpl. eauto.
  - intros acc _.
    destruct (Nat.le_gt_cases N (length c)) as [Hle|Hle].
    + rewrite getitem_map_seq_raise by lia. reflexivity.
    + rewrite getitem_map_seq by lia. simpl.
      rewrite getitem_raise by lia. reflexivity.
Qed.

(** [setup] on a fresh object, written out. *)
Lemma setup_eq (d : nat) (rnd : coins) :
  setup (init d) rnd =
  ({| self_d := d;
      self_s := Some (rnd_s rnd);
      self_alpha := Some (rnd_alpha rnd);
      self_g := Some (rnd_g rnd);
      self_t_coeffs := Some [rnd_t rnd] |},
   ((map (fun i => g1_pow (rnd_g rnd) (zr_pown (rnd_s rnd) i)) (seq 0 (S d)),
     map (fun i => g1_pow (rnd_g rnd) (rnd_alpha rnd * zr_pown (rnd_s rnd) i))
         (seq 0 (S d))),
    (g1_pow (rnd_g rnd) (rnd_alpha rnd),
     g1_pow (rnd_g rnd) (zr0 + rnd_t rnd * zr1)))).
Proof.
  unfold setup, init. cbn [self_d]. rewrite range_succ. reflexivity.
Qed.

Lemma division_invalid_raise (p t : list ZR) :
  t = [] \/ (forall c, In c t -> c = zr0) ->
  polynomial_division p t = Raise ValueError.
Proof.
  intros H. apply guard_spec in H.
  unfold polynomial_division. rewrite H. reflexivity.
Qed.

Ltac open_setup :=
  unfold after_setup, pk_of, vk_of; rewrite ?setup_eq;
  cbn [fst snd]; unfold prove;
  cbn [self_d self_s self_alpha self_g self_t_coeffs];
  rewrite ?eval_terms; cbn [bind getattr].

(** [prove] after [setup] when the sampled target coefficient is zero. *)
Lemma prove_zero_target (d : nat) (rnd : coins) (p : list ZR) (delta : ZR) :
  rnd_t rnd = zr0 ->
  prove (after_setup d rnd) (pk_of d rnd) p delta = Raise ValueError.
Proof.
  intros Ht. open_setup.
  rewrite division_invalid_raise; [reflexivity|].
  right. intros c [<-|[]]. exact Ht.
Qed.

(** [prove] after [setup] on a coefficient list that does not have exactly
    [d + 1] entries. *)
Lemma prove_wrong_length (d : nat) (rnd : coins) (p : list ZR) (delta : ZR) :
  rnd_t rnd <> zr0 ->
  length p <> S d ->
  prove (after_setup d rnd) (pk_of d rnd) p delta = Raise IndexError.
Proof.
  intros Ht Hlen. open_setup.
  destruct (division_constant p (rnd_t rnd) Ht) as (q & E & Hq & _).
  rewrite E. cbn [bind]. unfold len.
  destruct (Nat.lt_ge_cases (S d) (length p)) as [Hlong|Hshort].
  - rewrite commit_raise by lia. reflexivity.
  - rewrite commit_ok by lia. cbn [bind length].
    rewrite (commit_ok _ _ _ 0%nat) by lia. cbn [bind].
    replace (Z.of_nat d + 1)%Z with (Z.of_nat (S d)) by lia.
    rewrite commit_raise by lia. reflexivity.
Qed.

(** [prove] after [setup] on [d + 1] coefficients returns the three blinded
    commitments. *)
Lemma prove_right_length (d : nat) (rnd : coins) (p : list ZR) (delta : ZR) :
  rnd_t rnd <> zr0 ->
  length p = S d ->
  exists q,
    length q = length p /\
    (forall k, coef q k * rnd_t rnd = coef p k) /\
    prove (after_setup d rnd) (pk_of d rnd) p delta =
    Ok (g1_pow (g1_pow (rnd_g rnd)
                  (bigsum (fun i => coef p i * zr_pown (rnd_s rnd) i) (length p)))
               delta,
        g1_pow (g1_pow (rnd_g rnd)
                  (bigsum (fun i => zr_pown (rnd_s rnd) i * coef q i) (length q)))
               delta,
        g1_pow (g1_pow (rnd_g rnd)
                  (bigsum (fun i => rnd_alpha rnd * zr_pown (rnd_s rnd) i * coef p i)
                          (S d)))
               delta).
Proof.
  intros Ht Hlen.
  destruct (division_constant p (rnd_t rnd) Ht) as (q & E & Hq & Hdiv).
  exists q. split; [exact Hq|]. split; [exact Hdiv|].
  open_setup. rewrite E. cbn [bind]. unfold len.
  rewrite commit_ok by lia. cbn [bind length].
  rewrite (commit_ok _ _ _ 0%nat) by lia. cbn [bind].
  replace (Z.of_nat d + 1)%Z with (Z.of_nat (S d)) by lia.
  rewrite commit_ok by lia. cbn [bind].
  rewrite py_sum_bigsum. reflexivity.
Qed.

(** What [verify] computes when [self.g] is set. *)
Lemma verify_eq (self : MJ18) (g : G1) (VK : VerificationKey) (pi : proof_t) :
  self_g self = Some g ->
  verify self VK pi =
  Ok (gt_eqb (pair (snd pi) g) (pair (fst (fst pi)) (fst VK)) &&
      gt_eqb (pair (fst (fst pi)) g) (pair (snd (fst pi)) (snd VK))).
Proof.
  intros Hg. destruct pi as [[A B] C], VK as [g_alpha g_t_s].
  unfold verify. rewrite Hg. reflexivity.
Qed.

Lemma gt_eqb_true (x y : GT) : gt_eqb x y = true <-> x = y.
Proof. destruct (gt_eqb_spec x y); split; congruence. Qed.

(** A proof [prove] returns after [setup] passes [verify]. *)
Lemma prove_then_verify (d : nat) (rnd : coins) (p : list ZR) (delta : ZR) :
  rnd_t rnd <> zr0 ->
  length p = S d ->
  exists pi,
    prove (after_setup d rnd) (pk_of d rnd) p delta = Ok pi /\
    verify (after_setup d rnd) (vk_of d rnd) pi = Ok true.
Proof.
  intros Ht Hlen.
  destruct (prove_right_length d rnd p delta Ht Hlen) as (q & Hq & Hdiv & E).
  eexists. split; [exact E|].
  rewrite (verify_eq _ (rnd_g rnd)) by (unfold after_setup; rewrite setup_eq; reflexivity).
  unfold vk_of. rewrite setup_eq. cbn [fst snd].
  f_equal. apply andb_true_iff. split; apply gt_eqb_true.
  - rewrite !pair_pow_l, !pair_pow_r, !gt_pow_pow. f_equal.
    rewrite <- Hlen.
    rewrite (bigsum_ext _
      (fun i => rnd_alpha rnd * (coef p i * zr_pown (rnd_s rnd) i)))
      by (intros; ring).
    rewrite bigsum_scale. ring.
  - rewrite !pair_pow_l, !pair_pow_r, !gt_pow_pow. f_equal.
    rewrite Hq.
    rewrite (bigsum_ext
      (fun i => coef p i * zr_pown (rnd_s rnd) i)
      (fun i => rnd_t rnd * (zr_pown (rnd_s rnd) i * coef q i)))
      by (intros i _; rewrite <- Hdiv; ring).
    rewrite bigsum_scale. ring.
Qed.

End SchemeFacts.

(** ** Properties of the scheme and of the polynomial engine *)

Section Claims.

Context {PG : PairingGroup}.

Local Open Scope zr_scope.

Add Field zr_field_claims : zr_field.

(** In the object [setup] leaves, the target polynomial is a constant, and
    every polynomial is an exact multiple of a non-zero constant. *)
Lemma constant_divides_all (p : list ZR) (t0 : ZR) :
  t0 <> zr0 ->
  exists h, polynomial_multiply h [t0] = Ok p.
Proof.
  intros Ht.
  destruct (division_constant p t0 Ht) as (q & _ & Hq & Hdiv).
  exists q.
  destruct (multiply_spec q [t0]) as (r & E & Hlen & Hco).
  rewrite E. f_equal. apply coef_ext.
  - rewrite Hlen, <- Hq. unfold len. simpl. lia.
  - intros k. rewrite Hco, conv_constant. apply Hdiv.
Qed.

(** C1 (completeness).  After [setup] with a non-zero target polynomial,
    for every coefficient list [p] of length [d + 1] (each of them is an
    exact multiple of the constant target, see [constant_divides_all]),
    [prove] returns a proof and [verify] returns [True] on it. *)
Theorem completeness (d : nat) (rnd : coins) (p : list ZR) (delta : ZR) :
  rnd_t rnd <> zr0 ->
  length p = (d + 1)%nat ->
  exists pi,
    prove (after_setup d rnd) (pk_of d rnd) p delta = Ok pi /\
    verify (after_setup d rnd) (vk_of d rnd) pi = Ok true.
Proof.
  intros Ht Hlen. apply prove_then_verify; [exact Ht | lia].
Qed.

(** C2 (division exactness).  For every [p] and every non-zero [t],
    [polynomial_division] returns a quotient and a remainder, and the
    product [polynomial_multiply quotient t] plus the remainder is [p],
    coefficient by coefficient. *)
Theorem division_exactness (p t : list ZR) :
  (exists c, In c t /\ c <> zr0) ->
  exists q r product,
    polynomial_division p t = Ok (q, r) /\
    polynomial_multiply q t = Ok product /\
    forall k, coef product k + coef r k = coef p k.
Proof.
  intros Hnz.
  destruct (division_nonzero_returns p t Hnz) as (q & r & E).
  destruct (division_exact p t q r E) as (_ & Hex & _).
  destruct (multiply_spec q t) as (product & Em & _ & Hco).
  exists q, r, product. split; [exact E|]. split; [exact Em|].
  intros k. rewrite Hco. apply Hex.
Qed.

(** C3 (verification).  With [self.g] set, [verify] returns a boolean, and
    it is [True] exactly when both pairing equations hold: the restriction
    check [e(C, g) = e(A, g_alpha)] and the cofactor check
    [e(A, g) = e(B, g_t_s)]. *)
Theorem verify_iff_both_checks (self : MJ18) (g : G1)
  (g_alpha g_t_s A B C : G1) :
  self_g self = Some g ->
  exists b,
    verify self (g_alpha, g_t_s) (A, B, C) = Ok b /\
    (b = true <-> pair C g = pair A g_alpha /\ pair A g = pair B g_t_s) /\
    (b = false <-> ~ (pair C g = pair A g_alpha /\ pair A g = pair B g_t_s)).
Proof.
  intros Hg. rewrite (verify_eq _ g) by exact Hg. cbn [fst snd].
  eexists. split; [reflexivity|].
  assert (Ht : gt_eqb (pair C g) (pair A g_alpha) &&
               gt_eqb (pair A g) (pair B g_t_s) = true <->
               pair C g = pair A g_alpha /\ pair A g = pair B g_t_s).
  { rewrite andb_true_iff, !gt_eqb_true. reflexivity. }
  split; [exact Ht|].
  rewrite <- Ht. symmetry. apply not_true_iff_false.
Qed.

(** C4 (degree bound), as the code has it.  After [setup], [prove] on more
    than [d + 1] coefficients never returns a proof: it raises [ValueError]
    when the sampled target coefficient is zero, and otherwise [IndexError],
    from the loop that commits the quotient. *)
Theorem prove_overlong_raises (d : nat) (rnd : coins) (p : list ZR)
  (delta : ZR) :
  (length p > d + 1)%nat ->
  prove (after_setup d rnd) (pk_of d rnd) p delta =
  Raise (if rnd_t rnd == zr0 then ValueError else IndexError).
Proof.
  intros Hlen. destruct (zr_eqb_spec (rnd_t rnd) zr0) as [Hz|Hnz].
  - apply prove_zero_target. exact Hz.
  - apply prove_wrong_length; [exact Hnz | lia].
Qed.

(** C5 (trapdoor), as the code has it.  [setup] keeps the sampled [s] and
    [alpha] as attributes of the object; [verify] does not read them; and
    the quotient commitment and the alpha commitment of a proof do not
    depend on them: they are computed from the proving key. *)
Theorem trapdoor_kept_in_object :
  (forall d rnd,
     self_s (after_setup d rnd) = Some (rnd_s rnd) /\
     self_alpha (after_setup d rnd) = Some (rnd_alpha rnd)) /\
  (forall self VK pi, verify (forget_trapdoor self) VK pi = verify self VK pi) /\
  (forall self s' alpha' PK p delta,
     match prove self PK p delta,
           prove (with_trapdoor self s' alpha') PK p delta with
     | Ok (_, B, C), Ok (_, B', C') => B = B' /\ C = C'
     | _, _ => True
     end).
Proof.
  split; [|split].
  - intros d rnd. unfold after_setup. rewrite setup_eq. split; reflexivity.
  - intros self VK [[A B] C]. destruct VK as [g_alpha g_t_s]. reflexivity.
  - intros self s' alpha' [g_s_i g_alpha_s_i] p delta.
    unfold prove. cbn [with_trapdoor self_d self_s self_g self_t_coeffs].
    destruct (mapM _ _) as [terms|e]; cbn [bind]; [|exact I].
    destruct (mapM _ _) as [terms'|e];
      [|cbn [bind]; repeat (destruct (getattr _); cbn [bind]; trivial);
        destruct (polynomial_division _ _) as [[h r]|]; cbn [bind]; trivial;
        repeat (destruct (commit _ _ _); cbn [bind]; trivial)].
    cbn [bind].
    destruct (getattr (self_g self)); cbn [bind]; [|exact I].
    destruct (getattr (self_t_coeffs self)); cbn [bind]; [|exact I].
    destruct (polynomial_division _ _) as [[h r]|]; cbn [bind]; [|exact I].
    repeat (destruct (commit _ _ _); cbn [bind]; [|exact I]).
    split; reflexivity.
Qed.

(** C6 (zero divisor).  [polynomial_division] raises [ValueError] exactly
    when [t] is empty or all its coefficients are zero. *)
Theorem zero_divisor_rejected (p t : list ZR) :
  polynomial_division p t = Raise ValueError <->
  t = [] \/ (forall c, In c t -> c = zr0).
Proof.
  split.
  - intros E.
    destruct (division_cases p t) as [H | ]; [exact H | discriminate].
  - apply division_invalid_raise.
Qed.

(** C7 (shape of the product), as the code has it.  [polynomial_multiply]
    always returns; entry [k] of the result is the sum of [a[i] * b[j]]
    over the index pairs with [i + j = k]; the result has
    [len(a) + len(b) - 1] entries, none when that number is negative; with
    an empty input it is a list of zeros of that length. *)
Theorem multiply_shape (a b : list ZR) :
  exists r,
    polynomial_multiply a b = Ok r /\
    length r = Z.to_nat (len a + len b - 1) /\
    (forall k, coef r k = conv_pairs a b k) /\
    (a = [] \/ b = [] -> r = repeat zr0 (length a + length b - 1)).
Proof.
  destruct (multiply_spec a b) as (r & E & Hlen & Hco).
  exists r. split; [exact E|]. split; [exact Hlen|]. split.
  - intros k. rewrite conv_pairs_eq. apply Hco.
  - intros Hempty. apply coef_ext.
    + rewrite repeat_length, Hlen. unfold len. lia.
    + intros k. rewrite Hco. unfold coef at 1. rewrite nth_repeat.
      unfold conv. rewrite (bigsum_ext _ (fun _ => zr0)); [apply bigsum_zero|].
      intros i Hi. destruct Hempty as [-> | ->]; [simpl in Hi; lia|].
      rewrite (coef_overflow []) by (simpl; lia). destruct (i <=? k); ring.
Qed.

(** C9 (short inputs), as the code has it.  After [setup], [prove] on
    fewer than [d + 1] coefficients raises: [IndexError], from the loop
    that commits [alpha * p(s)], when the sampled target coefficient is
    non-zero, and [ValueError] when it is zero.  [prove] returns a proof
    only on exactly [d + 1] coefficients. *)
Theorem prove_short_raises (d : nat) (rnd : coins) (p : list ZR)
  (delta : ZR) :
  (length p < d + 1)%nat ->
  prove (after_setup d rnd) (pk_of d rnd) p delta =
    Raise (if rnd_t rnd == zr0 then ValueError else IndexError) /\
  (forall p' delta' pi,
     prove (after_setup d rnd) (pk_of d rnd) p' delta' = Ok pi ->
     length p' = (d + 1)%nat).
Proof.
  intros Hlen. split.
  - destruct (zr_eqb_spec (rnd_t rnd) zr0) as [Hz|Hnz].
    + apply prove_zero_target. exact Hz.
    + apply prove_wrong_length; [exact Hnz | lia].
  - intros p' delta' pi E.
    destruct (zr_eqb_spec (rnd_t rnd) zr0) as [Hz|Hnz].
    + rewrite prove_zero_target in E by exact Hz. discriminate.
    + destruct (Nat.eq_dec (length p') (S d)) as [H|H]; [lia|].
      rewrite prove_wrong_length in E by assumption. discriminate.
Qed.

(** With a zero constant coefficient in a non-zero [t], the loop divides
    the first non-zero coefficient of [p] it meets by zero, keeps the value
    as the quotient's entry, and leaves that coefficient in the remainder. *)
Lemma division_zero_constant (p t : list ZR) (m : nat) :
  (exists c, In c t /\ c <> zr0) ->
  coef t 0 = zr0 ->
  (m < Z.to_nat (len p - len t + 1))%nat ->
  coef p m <> zr0 ->
  (forall i, (i < m)%nat -> coef p i = zr0) ->
  exists q r,
    polynomial_division p t = Ok (q, r) /\
    coef q m = coef p m / zr0 /\
    coef r m = coef p m.
Proof.
  intros (c & Hc & Hcnz) Ht0 Hm Hpm Hlow.
  assert (Ht : (0 < length t)%nat) by (destruct t; [destruct Hc | simpl; lia]).
  unfold polynomial_division.
  destruct ((len t =? 0)%Z || all_zero t) eqn:G.
  { apply guard_spec in G. destruct G as [->|Hz]; [destruct Hc|].
    exfalso. apply Hcnz, Hz, Hc. }
  destruct (for_range_inv _ (division_step t)
    (fun i qr =>
       length (fst qr) = Z.to_nat (len p - len t + 1) /\
       length (snd qr) = length p /\
       (forall k, (k <= m)%nat -> coef (snd qr) k = coef p k) /\
       ((m < i)%nat -> coef (fst qr) m = coef p m / zr0))
    (len p - len t + 1)
    (map (fun _ => zr0) (range (len p - len t + 1)), p))
    as ([q rem] & E & _ & _ & Hrem & Hq).
  - cbn [fst snd]. split; [apply length_zeros|]. split; [reflexivity|].
    split; [reflexivity|]. intros H. lia.
  - intros i [q rem] Hi (Hlq & Hlr & Hrem & Hq). cbn [fst snd] in *.
    assert (Hs : step_outcome t i q rem (division_step t i (q, rem))).
    { apply division_step_spec; [exact Ht | lia |].
      rewrite Hlr. unfold len in Hi. lia. }
    destruct Hs as [Hz | rem' Hnz Hlen Hco].
    + exists (q, rem). split; [reflexivity|]. cbn [fst snd].
      repeat split; trivial.
      intros Hmi. destruct (Nat.eq_dec m i) as [->|Hne].
      * exfalso. apply Hpm. rewrite <- (Hrem i) by lia. exact Hz.
      * apply Hq. lia.
    + assert (Him : (m <= i)%nat).
      { destruct (Nat.le_gt_cases m i) as [H|H]; [exact H|].
        exfalso. apply Hnz. rewrite Hrem by lia. apply Hlow, H. }
      eexists. split; [reflexivity|]. cbn [fst snd].
      rewrite replace_nth_length.
      split; [exact Hlq|]. split; [congruence|]. split.
      * intros k Hk. rewrite Hco, <- (Hrem k Hk).
        destruct (Nat.leb_spec i k); [|ring].
        replace k with i by lia. rewrite Nat.sub_diag, Ht0. ring.
      * intros _. rewrite coef_replace_nth by lia.
        destruct (Nat.eqb_spec m i) as [->|Hne].
        -- rewrite Hrem, Ht0 by lia. reflexivity.
        -- apply Hq. lia.
  - cbn [fst snd] in *. rewrite E. cbn [bind].
    exists q, (trim rem). split; [reflexivity|]. split.
    + apply Hq, Hm.
    + rewrite coef_trim. apply Hrem. lia.
Qed.

(** C10 (the divisor's constant coefficient), as the code has it.  When
    [t] is not zero but [t[0]] is, and [p] has a non-zero coefficient among
    its first [len(p) - len(t) + 1], [polynomial_division] divides by the
    zero scalar and still returns: at the first such index [m] the
    quotient's entry is [p[m] / 0], the remainder keeps the non-zero
    [p[m]] below the length of the quotient, and quotient times divisor
    plus remainder is [p]. *)
Theorem division_zero_constant_term_returns (p t : list ZR) :
  (exists c, In c t /\ c <> zr0) ->
  coef t 0 = zr0 ->
  (exists i, (Z.of_nat i < len p - len t + 1)%Z /\ coef p i <> zr0) ->
  exists q r m,
    polynomial_division p t = Ok (q, r) /\
    (forall k, conv_pairs q t k + coef r k = coef p k) /\
    (m < length q)%nat /\
    coef q m = coef p m / zr0 /\
    coef r m = coef p m /\
    coef r m <> zr0.
Proof.
  intros Hnz Ht0 (i & Hi & Hp).
  destruct (first_nonzero p (Z.to_nat (len p - len t + 1)))
    as [Hall | (m & Hm & Hpm & Hlow)].
  { exfalso. apply Hp, Hall. lia. }
  destruct (division_zero_constant p t m Hnz Ht0 Hm Hpm Hlow)
    as (q & r & E & Hq & Hr).
  destruct (division_exact p t q r E) as (Hlen & Hex & _).
  exists q, r, m. split; [exact E|]. split.
  - intros k. rewrite conv_pairs_eq. apply Hex.
  - split; [rewrite Hlen; exact Hm|]. split; [exact Hq|].
    split; [exact Hr|]. rewrite Hr. exact Hpm.
Qed.

End Claims.

(** ** The scheme over the field of thirteen elements *)

Module Toy13.

Import Toy.

(** [completeness] on three coefficients under degree bound 2. *)
Lemma completeness_witness :
  exists pi,
    prove (after_setup 2 rnd13) (pk_of 2 rnd13) (poly13 [1; 2; 3]%Z) (z13 9)
      = Ok pi /\
    verify (after_setup 2 rnd13) (vk_of 2 rnd13) pi = Ok true.
Proof.
  apply (@completeness F13 2 rnd13 (poly13 [1; 2; 3]%Z) (z13 9)).
  - vm_compute. discriminate.
  - reflexivity.
Defined.

(** [verify_iff_both_checks] on the key and the proof of that run. *)
Lemma verify_iff_both_checks_witness :
  exists b,
    verify (after_setup 2 rnd13) (z13 8, z13 12) (z13 8, z13 2, z13 4) = Ok b /\
    (b = true <->
       @pair F13 (z13 4) (z13 3) = @pair F13 (z13 8) (z13 8) /\
       @pair F13 (z13 8) (z13 3) = @pair F13 (z13 2) (z13 12)) /\
    (b = false <->
       ~ (@pair F13 (z13 4) (z13 3) = @pair F13 (z13 8) (z13 8) /\
          @pair F13 (z13 8) (z13 3) = @pair F13 (z13 2) (z13 12))).
Proof.
  apply (@verify_iff_both_checks F13 (after_setup 2 rnd13) (z13 3)).
  reflexivity.
Defined.

(** [prove_overlong_raises] on three coefficients under degree bound 1. *)
Lemma prove_overlong_raises_witness :
  prove (after_setup 1 rnd13) (pk_of 1 rnd13) (poly13 [1; 2; 3]%Z) (z13 9)
  = Raise (if @zr_eqb F13 (rnd_t rnd13) zr0 then ValueError else IndexError).
Proof.
  apply (@prove_overlong_raises F13 1 rnd13 (poly13 [1; 2; 3]%Z) (z13 9)).
  simpl. lia.
Defined.

(** C4 fails as stated: with the target coefficient drawn as 0, [prove]
    on two coefficients under degree bound 0 raises [ValueError], the
    zero-divisor error, and not a degree or index error. *)
Lemma degree_bound_counterexample :
  (length (poly13 [1; 1]%Z) > 0 + 1)%nat /\
  prove (after_setup 0 rnd13_zero) (pk_of 0 rnd13_zero) (poly13 [1; 1]%Z)
        (z13 9) = Raise ValueError /\
  prove (after_setup 0 rnd13_zero) (pk_of 0 rnd13_zero) (poly13 [1; 1]%Z)
        (z13 9) <> Raise IndexError.
Proof.
  split; [simpl; lia|]. split; [vm_compute; reflexivity|].
  vm_compute. discriminate.
Qed.

(** The loop that commits [alpha * p(s)] does not enforce the bound: with
    a target polynomial of two coefficients in the object, [prove] under
    degree bound 0 accepts two coefficients and returns a proof. *)
Example overlong_accepted_with_linear_target :
  prove self13_linear (pk_of 0 rnd13) (poly13 [1; 1]%Z) (z13 9)
  = Ok (z13 6, z13 1, z13 7).
Proof. vm_compute. reflexivity. Qed.

(** C5 fails as stated: after [setup] the object holds [s] and [alpha],
    and [prove] reads [self.s]: on the object without them it raises
    [AttributeError], on the object with them it returns a proof. *)
Lemma trapdoor_counterexample :
  self_s (after_setup 2 rnd13) = Some (z13 5) /\
  self_alpha (after_setup 2 rnd13) = Some (z13 7) /\
  prove (forget_trapdoor (after_setup 2 rnd13)) (pk_of 2 rnd13)
        (poly13 [1; 2; 3]%Z) (z13 9) = Raise AttributeError /\
  prove (after_setup 2 rnd13) (pk_of 2 rnd13)
        (poly13 [1; 2; 3]%Z) (z13 9) = Ok (z13 8, z13 2, z13 4).
Proof. repeat split; vm_compute; reflexivity. Qed.

(** The first component of a proof follows the [s] stored in the object,
    not the proving key: with 6 stored in place of the 5 that [setup]
    used, the same key gives another first component and the same two
    others. *)
Example first_commitment_reads_stored_s :
  prove (with_trapdoor (after_setup 2 rnd13) (Some (z13 6)) (Some (z13 7)))
        (pk_of 2 rnd13) (poly13 [1; 2; 3]%Z) (z13 9)
  = Ok (z13 4, z13 2, z13 4).
Proof. vm_compute. reflexivity. Qed.

(** C7 fails as stated: the product of the empty list and a list of two
    coefficients is a list of one zero, not the empty list. *)
Lemma multiply_empty_counterexample :
  @polynomial_multiply F13 [] (poly13 [1; 2]%Z) = Ok (poly13 [0]%Z) /\
  @polynomial_multiply F13 [] (poly13 [1; 2]%Z) <> Ok [].
Proof. split; [vm_compute; reflexivity | vm_compute; discriminate]. Qed.

(** [prove_short_raises] on one coefficient under degree bound 2. *)
Lemma prove_short_raises_witness :
  prove (after_setup 2 rnd13) (pk_of 2 rnd13) (poly13 [1]%Z) (z13 9) =
    Raise (if @zr_eqb F13 (rnd_t rnd13) zr0 then ValueError else IndexError) /\
  (forall p' delta' pi,
     prove (after_setup 2 rnd13) (pk_of 2 rnd13) p' delta' = Ok pi ->
     length p' = (2 + 1)%nat).
Proof.
  apply (@prove_short_raises F13 2 rnd13 (poly13 [1]%Z) (z13 9)).
  simpl. lia.
Defined.

(** C9 fails as stated: with the target coefficient drawn as 0, [prove] on
    one coefficient under degree bound 2 raises [ValueError] in the
    division, before the loop that would run out of coefficients. *)
Lemma short_input_counterexample :
  (length (poly13 [1]%Z) < 2 + 1)%nat /\
  prove (after_setup 2 rnd13_zero) (pk_of 2 rnd13_zero) (poly13 [1]%Z)
        (z13 9) = Raise ValueError /\
  prove (after_setup 2 rnd13_zero) (pk_of 2 rnd13_zero) (poly13 [1]%Z)
        (z13 9) <> Raise IndexError.
Proof.
  split; [simpl; lia|]. split; [vm_compute; reflexivity|].
  vm_compute. discriminate.
Qed.

(** [division_exactness] on [1 + x] divided by [x]. *)
Lemma division_exactness_witness :
  exists q r product,
    @polynomial_division F13 (poly13 [1; 1]%Z) (poly13 [0; 1]%Z) = Ok (q, r) /\
    polynomial_multiply q (poly13 [0; 1]%Z) = Ok product /\
    forall k, @zr_add F13 (coef product k) (coef r k)
              = coef (poly13 [1; 1]%Z) k.
Proof.
  apply (@division_exactness F13 (poly13 [1; 1]%Z) (poly13 [0; 1]%Z)).
  exists (z13 1). split; [right; left; reflexivity | vm_compute; discriminate].
Defined.

(** [division_zero_constant_term_returns] on [5x + x^2] divided by [x]. *)
Lemma division_zero_constant_term_returns_witness :
  exists q r m,
    @polynomial_division F13 (poly13 [0; 5; 1]%Z) (poly13 [0; 1]%Z)
      = Ok (q, r) /\
    (forall k, @zr_add F13 (conv_pairs q (poly13 [0; 1]%Z) k) (coef r k)
               = coef (poly13 [0; 5; 1]%Z) k) /\
    (m < length q)%nat /\
    coef q m = @zr_div F13 (coef (poly13 [0; 5; 1]%Z) m) zr0 /\
    coef r m = coef (poly13 [0; 5; 1]%Z) m /\
    coef r m <> zr0.
Proof.
  apply (@division_zero_constant_term_returns F13
           (poly13 [0; 5; 1]%Z) (poly13 [0; 1]%Z)).
  - exists (z13 1). split; [right; left; reflexivity | vm_compute; discriminate].
  - reflexivity.
  - exists 1%nat. split; [vm_compute; reflexivity | vm_compute; discriminate].
Defined.

(** C10 fails as stated: [1 + x] divided by [x] meets the claim's
    conditions, and the division returns a quotient and a remainder. *)
Lemma zero_constant_term_counterexample :
  (exists c, In c (poly13 [0; 1]%Z) /\ c <> @zr0 F13) /\
  @coef F13 (poly13 [0; 1]%Z) 0 = zr0 /\
  (exists i, (Z.of_nat i < len (poly13 [1; 1]%Z) - len (poly13 [0; 1]%Z) + 1)%Z
             /\ @coef F13 (poly13 [1; 1]%Z) i <> zr0) /\
  @polynomial_division F13 (poly13 [1; 1]%Z) (poly13 [0; 1]%Z)
  = Ok (poly13 [0]%Z, poly13 [1; 1]%Z).
Proof.
  split; [|split; [|split]].
  - exists (z13 1). split; [right; left; reflexivity | vm_compute; discriminate].
  - reflexivity.
  - exists 0%nat. split; [vm_compute; reflexivity | vm_compute; discriminate].
  - vm_compute. reflexivity.
Qed.

(** The repository's own check of a division,
    [verify_polynomial_division], accepts what [polynomial_division]
    returns on the concrete scenario. *)
Example scenario_accepted_by_repository_check :
  @verify_polynomial_division F13 (poly13 [6; -5; 1]%Z) (poly13 [-2; 1]%Z)
    (poly13 [-3; 1]%Z) [] = Ok true.
Proof. vm_compute. reflexivity. Qed.

(** C8 (concrete scenario).  Over the field of thirteen elements, dividing
    [(x - 2)(x - 3) = 6 - 5x + x^2] by [x - 2] gives the quotient [x - 3]
    and the empty remainder. *)
Theorem concrete_division :
  @polynomial_division F13 (poly13 [6; -5; 1]%Z) (poly13 [-2; 1]%Z)
  = Ok (poly13 [-3; 1]%Z, []).
Proof. vm_compute. reflexivity. Qed.

End Toy13.

(** ** More on the polynomial engine *)

Section EngineFacts.

Context {PG : PairingGroup}.

Local Open Scope zr_scope.

Add Field zr_field_engine : zr_field.

(** A sum does not change when zero terms are added at its end. *)
Lemma bigsum_trunc (f : nat -> ZR) m n :
  (m <= n)%nat ->
  (forall i, (m <= i < n)%nat -> f i = zr0) ->
  bigsum f n = bigsum f m.
Proof.
  intros Hmn. induction n as [|n IH]; intros Hz.
  - replace m with 0%nat by lia. reflexivity.
  - destruct (Nat.eq_dec m (S n)) as [->|Hne]; [reflexivity|].
    simpl. rewrite IH by (try lia; intros i Hi; apply Hz; lia).
    rewrite (Hz n) by lia. ring.
Qed.

(** The convolution coefficient as a sum over [i = 0 .. k]. *)
Lemma conv_upto (a b : list ZR) k :
  conv a b k = bigsum (fun i => coef a i * coef b (k - i)) (S k).
Proof.
  unfold conv.
  set (f := fun i => if i <=? k then coef a i * coef b (k - i) else zr0).
  rewrite (bigsum_ext (fun i => coef a i * coef b (k - i)) f (S k)).
  - destruct (Nat.le_ge_cases (length a) (S k)) as [H|H].
    + symmetry. apply bigsum_trunc; [exact H|].
      intros i Hi. unfold f. rewrite (coef_overflow a) by lia.
      destruct (i <=? k); ring.
    + apply bigsum_trunc; [exact H|].
      intros i Hi. unfold f. destruct (Nat.leb_spec i k); [lia|reflexivity].
  - intros i Hi. unfold f. destruct (Nat.leb_spec i k); [reflexivity|lia].
Qed.

Lemma bigsum_shift (f : nat -> ZR) n :
  bigsum f (S n) = f 0%nat + bigsum (fun i => f (S i)) n.
Proof.
  induction n as [|n IH]; [simpl; ring|].
  change (bigsum f (S (S n))) with (bigsum f (S n) + f (S n)).
  rewrite IH. simpl. ring.
Qed.

(** Summing in the opposite order. *)
Lemma bigsum_rev (n : nat) : forall f : nat -> ZR,
  bigsum f n = bigsum (fun i => f (n - 1 - i)%nat) n.
Proof.
  induction n as [|n IH]; intros f; [reflexivity|].
  rewrite bigsum_shift. rewrite (IH (fun i => f (S i))).
  transitivity (bigsum (fun i => f (S n - 1 - i)%nat) n + f (S n - 1 - n)%nat);
    [|reflexivity].
  replace (S n - 1 - n)%nat with 0%nat by lia.
  rewrite (bigsum_ext (fun i => f (S (n - 1 - i))) (fun i => f (S n - 1 - i)%nat)).
  - ring.
  - intros i Hi. f_equal. lia.
Qed.

Lemma conv_comm (a b : list ZR) k : conv a b k = conv b a k.
Proof.
  rewrite !conv_upto. rewrite bigsum_rev.
  apply bigsum_ext. intros i Hi.
  replace (S k - 1 - i)%nat with (k - i)%nat by lia.
  replace (k - (k - i))%nat with i by lia. ring.
Qed.

(** X6.  The product does not depend on the order of its factors. *)
Theorem multiply_comm (a b : list ZR) :
  polynomial_multiply a b = polynomial_multiply b a.
Proof.
  destruct (multiply_spec a b) as (r & E & Hlen & Hco).
  destruct (multiply_spec b a) as (r' & E' & Hlen' & Hco').
  rewrite E, E'. f_equal. apply coef_ext.
  - rewrite Hlen, Hlen'. f_equal. lia.
  - intros k. rewrite Hco, Hco'. apply conv_comm.
Qed.

(** Two quotients that agree with the same product below index [n] have
    the same coefficients below [n], when the divisor's constant
    coefficient is not zero. *)
Lemma conv_cancel (q h t : list ZR) n :
  coef t 0 <> zr0 ->
  (forall k, (k < n)%nat -> conv q t k = conv h t k) ->
  forall k, (k < n)%nat -> coef q k = coef h k.
Proof.
  intros Ht0 Hconv k. induction k as [k IH] using lt_wf_ind. intros Hk.
  specialize (Hconv k Hk). rewrite !conv_upto in Hconv. simpl in Hconv.
  rewrite Nat.sub_diag in Hconv.
  rewrite (bigsum_ext (fun i => coef q i * coef t (k - i))
                      (fun i => coef h i * coef t (k - i))) in Hconv
    by (intros i Hi; rewrite IH by lia; reflexivity).
  assert (E : coef q k * coef t 0 = coef h k * coef t 0).
  { transitivity
      (bigsum (fun i => coef h i * coef t (k - i)) k + coef q k * coef t 0
       - bigsum (fun i => coef h i * coef t (k - i)) k); [ring|].
    rewrite Hconv. ring. }
  transitivity (coef q k * coef t 0 / coef t 0); [field; exact Ht0|].
  rewrite E. field. exact Ht0.
Qed.

(** X5.  Round trip: dividing a product [h * t] by [t] gives back [h] and the
    empty remainder, when the constant coefficient of [t] is not zero. *)
Theorem multiply_then_divide (h t p : list ZR) :
  coef t 0 <> zr0 ->
  polynomial_multiply h t = Ok p ->
  polynomial_division p t = Ok (h, []).
Proof.
  intros Ht0 Hmul.
  destruct (multiply_spec h t) as (p' & E & Hlen & Hco).
  rewrite Hmul in E. injection E as <-.
  assert (Ht : (0 < length t)%nat).
  { destruct t; [exfalso; apply Ht0; reflexivity | simpl; lia]. }
  destruct (division_total p t Ht0) as (q & r & Ediv).
  destruct (division_exact p t q r Ediv) as (Hq & Hex & Hr0 & Htrim).
  specialize (Hr0 Ht0).
  assert (Hqh : length q = length h).
  { rewrite Hq. unfold len in *. rewrite Hlen. lia. }
  assert (Hcoef : forall k, coef q k = coef h k).
  { intros k. destruct (Nat.lt_ge_cases k (length q)) as [Hk|Hk].
    - apply (conv_cancel q h t (length q) Ht0); [|exact Hk].
      intros j Hj. rewrite <- Hco, <- (Hex j), (Hr0 j Hj). ring.
    - rewrite !coef_overflow by lia. reflexivity. }
  assert (Eq : q = h) by (apply coef_ext; assumption).
  subst q.
  assert (Er : r = []).
  { rewrite <- Htrim. apply trim_all_zero. intros k _.
    specialize (Hex k). rewrite <- Hco in Hex.
    transitivity (coef p k + coef r k - coef p k); [ring|].
    rewrite Hex. ring. }
  rewrite Ediv, Er. reflexivity.
Qed.

Lemma drop_zeros_head (l : list ZR) :
  drop_zeros l = [] \/
  exists x l', drop_zeros l = x :: l' /\ x <> zr0.
Proof.
  induction l as [|x l IH]; simpl; [left; reflexivity|].
  destruct (zr_eqb_spec x zr0) as [Hz|Hnz]; [exact IH|].
  right. exists x, l. auto.
Qed.

(** After trimming, a list is empty or ends in a non-zero coefficient. *)
Lemma trim_last (l : list ZR) :
  trim l = [] \/ last (trim l) zr0 <> zr0.
Proof.
  unfold trim. destruct (drop_zeros_head (rev l)) as [E | (x & l' & E & Hx)].
  - left. rewrite E. reflexivity.
  - right. rewrite E. simpl. rewrite last_last. exact Hx.
Qed.

Lemma trim_length (l : list ZR) : (length (trim l) <= length l)%nat.
Proof.
  destruct (trim_split l) as [n E]. rewrite E at 2.
  rewrite length_app. lia.
Qed.

Lemma division_remainder_length (p t q r : list ZR) :
  polynomial_division p t = Ok (q, r) -> (length r <= length p)%nat.
Proof.
  intros E.
  destruct (division_cases p t) as [ | q' rem _ _ HI]; try discriminate.
  injection E as <- <-.
  destruct HI as (_ & Hrem & _). rewrite <- Hrem. apply trim_length.
Qed.

(** X1.  Whenever [polynomial_division] returns, the quotient has
    [len(p) - len(t) + 1] entries (none when that is negative), quotient
    times divisor plus remainder is [p] coefficient by coefficient, the
    remainder is no longer than [p] and does not end in a zero
    coefficient; when the constant coefficient of [t] is not zero, the
    remainder has no term below [x^len(quotient)]. *)
Theorem division_returns_exact (p t q r : list ZR) :
  polynomial_division p t = Ok (q, r) ->
  length q = Z.to_nat (len p - len t + 1) /\
  (forall k, conv_pairs q t k + coef r k = coef p k) /\
  (coef t 0 <> zr0 -> forall k, (k < length q)%nat -> coef r k = zr0) /\
  (length r <= length p)%nat /\
  (r = [] \/ last r zr0 <> zr0).
Proof.
  intros E.
  destruct (division_cases p t) as [ | q' rem _ _ HI]; try discriminate.
  injection E as <- <-.
  destruct HI as (Hq & Hrem & Hex & _ & Hr0).
  split; [exact Hq|]. split; [|split; [|split]].
  - intros k. rewrite conv_pairs_eq, coef_trim. apply Hex.
  - intros Ht0 k Hk. rewrite coef_trim. apply Hr0; [exact Ht0 | lia].
  - rewrite <- Hrem. apply trim_length.
  - apply trim_last.
Qed.

(** X2.  [polynomial_division] returns for every [p] when the constant
    coefficient of [t] is not zero. *)
Theorem division_returns_when_constant_nonzero (p t : list ZR) :
  coef t 0 <> zr0 ->
  exists q r, polynomial_division p t = Ok (q, r).
Proof. apply division_total. Qed.

(** X3.  [polynomial_division] never raises [IndexError]: every list access
    of its loops is in range, whatever the lengths of [p] and [t]. *)
Theorem division_never_index_error (p t : list ZR) :
  polynomial_division p t <> Raise IndexError.
Proof. destruct (division_cases p t); discriminate. Qed.

(** X4.  Dividing by a non-zero constant returns for every [p]: each
    coefficient of the quotient times the constant is the coefficient of
    [p], and the remainder is empty. *)
Theorem divide_by_constant (p : list ZR) (t0 : ZR) :
  t0 <> zr0 ->
  exists q,
    polynomial_division p [t0] = Ok (q, []) /\
    length q = length p /\
    forall k, coef q k * t0 = coef p k.
Proof. apply division_constant. Qed.

Lemma coef_app_single (l : list ZR) x k :
  coef (l ++ [x]) k =
  if k <? length l then coef l k else if k =? length l then x else zr0.
Proof.
  unfold coef. destruct (Nat.ltb_spec k (length l)) as [H|H].
  - apply app_nth1. exact H.
  - rewrite app_nth2 by exact H.
    destruct (Nat.eqb_spec k (length l)) as [->|Hne].
    + rewrite Nat.sub_diag. reflexivity.
    + destruct (k - length l)%nat as [|[|j]] eqn:Ek; try lia; reflexivity.
Qed.

(** The loop of [verify_polynomial_division] that adds the remainder. *)
Lemma add_remainder_spec (product r : list ZR) :
  exists res,
    add_remainder product r = Ok res /\
    length res = Nat.max (length product) (length r) /\
    forall k, coef res k = coef product k + coef r k.
Proof.
  unfold add_remainder.
  destruct (for_range_inv _
    (fun i product =>
       if (Z.of_nat i <? len product)%Z then
         x <- getitem product i ;;
         ri <- getitem r i ;;
         setitem product i (x + ri)
       else
         ri <- getitem r i ;;
         Ok (product ++ [ri]))
    (fun m res =>
       length res = Nat.max (length product) m /\
       forall k, coef res k =
                 coef product k + (if k <? m then coef r k else zr0))
    (len r) product) as (res & E & Hlen & Hco).
  - split; [lia|]. intros k. simpl. ring.
  - intros i res Hi [Hlen Hco]. rewrite to_nat_len in Hi. unfold len.
    destruct (Z.ltb_spec (Z.of_nat i) (Z.of_nat (length res))) as [Hlt|Hge].
    + rewrite (getitem_coef res), (getitem_coef r) by lia. simpl.
      rewrite setitem_ok by lia.
      eexists. split; [reflexivity|]. split.
      * rewrite replace_nth_length. lia.
      * intros k. rewrite coef_replace_nth by lia.
        destruct (Nat.eqb_spec k i) as [->|Hne].
        -- rewrite Hco, Nat.ltb_irrefl.
           destruct (Nat.ltb_spec i (S i)); [ring|lia].
        -- rewrite Hco.
           destruct (Nat.ltb_spec k i), (Nat.ltb_spec k (S i));
             try lia; reflexivity.
    + rewrite (getitem_coef r) by lia. simpl.
      eexists. split; [reflexivity|]. split.
      * rewrite length_app. simpl. lia.
      * intros k. rewrite coef_app_single.
        assert (Hi' : length res = i) by lia.
        destruct (Nat.ltb_spec k (length res)) as [Hk|Hk].
        -- rewrite Hco.
           destruct (Nat.ltb_spec k i), (Nat.ltb_spec k (S i));
             try lia; reflexivity.
        -- destruct (Nat.eqb_spec k (length res)) as [->|Hne].
           ++ rewrite Hi'.
              destruct (Nat.ltb_spec i (S i)); [|lia].
              rewrite (coef_overflow product) by lia. ring.
           ++ destruct (Nat.ltb_spec k (S i)); [lia|].
              rewrite (coef_overflow product) by lia. ring.
  - exists res. rewrite to_nat_len in Hlen, Hco.
    split; [exact E|]. split; [exact Hlen|].
    intros k. rewrite Hco.
    destruct (Nat.ltb_spec k (length r)); [reflexivity|].
    rewrite (coef_overflow r) by lia. reflexivity.
Qed.

(** The comparison loop of [verify_polynomial_division]. *)
Lemma all_equal_spec (p product : list ZR) :
  (length p <= length product)%nat ->
  exists b,
    all_equal p product = Ok b /\
    (b = true <->
     forall k, (k < length p)%nat -> coef p k = coef product k).
Proof.
  intros Hlen. unfold all_equal.
  destruct (for_range_inv _
    (fun i (acc : bool) =>
       if acc then
         x <- getitem p i ;;
         y <- getitem product i ;;
         Ok (x == y)
       else Ok false)
    (fun m acc =>
       acc = true <->
       forall k, (k < m)%nat -> coef p k = coef product k)
    (len p) true) as (b & E & Hb).
  - split; [intros _ k Hk; lia | reflexivity].
  - intros i acc Hi Hacc. rewrite to_nat_len in Hi.
    destruct acc.
    + rewrite (getitem_coef p), (getitem_coef product) by lia. simpl.
      eexists. split; [reflexivity|].
      rewrite zr_eqb_true. split.
      * intros Heq k Hk. destruct (Nat.eq_dec k i) as [->|Hne]; [exact Heq|].
        apply Hacc; [reflexivity | lia].
      * intros H. apply H. lia.
    + exists false. split; [reflexivity|]. split; [discriminate|].
      intros H. apply Hacc. intros k Hk. apply H. lia.
  - exists b. rewrite to_nat_len in Hb. auto.
Qed.

Lemma check_spec (p t q r : list ZR) :
  exists b,
    verify_polynomial_division p t q r = Ok b /\
    (b = true <->
     length p = Nat.max (Z.to_nat (len q + len t - 1)) (length r) /\
     forall k, (k < length p)%nat -> coef p k = conv q t k + coef r k).
Proof.
  unfold verify_polynomial_division.
  destruct (multiply_spec q t) as (prod & E & Hlen & Hco).
  rewrite E. cbn [bind].
  destruct (add_remainder_spec prod r) as (res & E' & Hlen' & Hco').
  rewrite E'. cbn [bind]. unfold len at 1 2.
  destruct (Z.eqb_spec (Z.of_nat (length p)) (Z.of_nat (length res)))
    as [Heq|Hne].
  - destruct (all_equal_spec p res) as (b & Eb & Hb); [lia|].
    exists b. split; [exact Eb|]. rewrite Hb. split.
    + intros H. split; [lia|].
      intros k Hk. rewrite (H k Hk), Hco', Hco. reflexivity.
    + intros [_ H] k Hk.
      rewrite (H k Hk), Hco', Hco. reflexivity.
  - exists false. split; [reflexivity|]. split; [discriminate|].
    intros [H _]. exfalso. apply Hne. rewrite Hlen', Hlen. lia.
Qed.

(** X7.  [verify_polynomial_division] never raises; it returns [True] exactly
    when [p] has as many entries as the longer of the product
    [quotient * t] and the remainder, and every coefficient of [p] is the
    sum of theirs. *)
Theorem verify_polynomial_division_spec (p t q r : list ZR) :
  exists b,
    verify_polynomial_division p t q r = Ok b /\
    (b = true <->
     length p = Nat.max (Z.to_nat (len q + len t - 1)) (length r) /\
     forall k, (k < length p)%nat ->
               coef p k = conv_pairs q t k + coef r k).
Proof.
  destruct (check_spec p t q r) as (b & E & Hb).
  exists b. split; [exact E|]. rewrite Hb.
  split; intros [Hlen H]; (split; [exact Hlen|]); intros k Hk;
    [rewrite conv_pairs_eq | rewrite <- conv_pairs_eq]; apply H, Hk.
Qed.

(** X8.  The repository's check accepts what [polynomial_division] returns
    exactly when [p] has at least [len(t) - 1] entries; for a shorter [p]
    it returns [False], because the product of the empty quotient with [t]
    has [len(t) - 1] entries. *)
Theorem division_output_checked (p t q r : list ZR) :
  polynomial_division p t = Ok (q, r) ->
  verify_polynomial_division p t q r = Ok (length t <=? length p + 1).
Proof.
  intros E.
  pose proof (division_remainder_length p t q r E) as Hr.
  destruct (division_exact p t q r E) as (Hq & Hex & _ & _).
  assert (Ht : (0 < length t)%nat).
  { destruct t; [|simpl; lia].
    rewrite division_invalid_raise in E by (left; reflexivity). discriminate. }
  destruct (check_spec p t q r) as (b & Eb & Hb).
  rewrite Eb. f_equal.
  destruct (Nat.leb_spec (length t) (length p + 1)) as [Hle|Hgt].
  - apply Hb. split.
    + unfold len. rewrite Hq. unfold len. lia.
    + intros k _. symmetry. apply Hex.
  - destruct b; [|reflexivity].
    destruct Hb as [Hb _]. destruct (Hb eq_refl) as [Hlen _].
    unfold len in Hlen. rewrite Hq in Hlen. unfold len in Hlen. lia.
Qed.

End EngineFacts.

(** ** The Merkle-tree index: building and searching *)

Module MerkleFacts.

Import Stdlib.Strings.String.
Import Merkle.

Section Tree.

Variable hash_data : string -> string.

(** Induction over a list two elements at a time. *)
Lemma list_pair_ind (A : Type) (P : list A -> Prop) :
  P [] ->
  (forall x, P [x]) ->
  (forall x y l, P l -> P (x :: y :: l)) ->
  forall l, P l.
Proof.
  intros H0 H1 H2.
  fix IH 1. intros [|x [|y l]]; [exact H0 | apply H1 | apply H2, IH].
Qed.

Lemma build_level_length (nodes : list Node) :
  List.length (build_level hash_data nodes) = Nat.div2 (S (List.length nodes)).
Proof.
  induction nodes as [|x|x y l IH] using list_pair_ind; try reflexivity.
  cbn [build_level List.length]. rewrite IH. reflexivity.
Qed.

Lemma div2_succ_le (n : nat) : (2 <= n -> Nat.div2 (S n) < n)%nat.
Proof.
  intros H. pose proof (Nat.div2_odd (S n)) as Hd.
  destruct (Nat.odd (S n)); simpl Nat.b2n in Hd; lia.
Qed.

Lemma build_level_nonempty (nodes : list Node) :
  nodes <> [] -> build_level hash_data nodes <> [].
Proof.
  destruct nodes as [|x [|y l]]; [congruence | discriminate..].
Qed.

(** The loop leaves at most one node when it may make as many passes as
    it has nodes: it ends because its condition fails. *)
Lemma build_loop_enough (fuel : nat) : forall nodes,
  (List.length nodes <= fuel)%nat ->
  (List.length (build_loop hash_data fuel nodes) <= 1)%nat.
Proof.
  induction fuel as [|fuel IH]; intros nodes H; simpl.
  - lia.
  - destruct (Nat.ltb_spec 1 (List.length nodes)) as [H1|H1]; [|lia].
    apply IH. rewrite build_level_length.
    pose proof (div2_succ_le (List.length nodes)). lia.
Qed.

(** More passes than nodes change nothing. *)
Lemma build_loop_fuel (f1 : nat) : forall f2 nodes,
  (List.length nodes <= f1)%nat ->
  (List.length nodes <= f2)%nat ->
  build_loop hash_data f1 nodes = build_loop hash_data f2 nodes.
Proof.
  induction f1 as [|f1 IH]; intros f2 nodes H1 H2.
  - destruct nodes; [|simpl in H1; lia].
    destruct f2; reflexivity.
  - destruct f2 as [|f2].
    + destruct nodes; [reflexivity | simpl in H2; lia].
    + simpl.
      destruct (Nat.ltb_spec 1 (List.length nodes)) as [Hlt|Hge];
        [|reflexivity].
      apply IH; rewrite build_level_length;
        pose proof (div2_succ_le (List.length nodes)); lia.
Qed.

Lemma build_loop_step (fuel : nat) (nodes : list Node) :
  (1 < List.length nodes)%nat ->
  build_loop hash_data (S fuel) nodes
  = build_loop hash_data fuel (build_level hash_data nodes).
Proof.
  intros H. simpl.
  destruct (Nat.ltb_spec 1 (List.length nodes)); [reflexivity|lia].
Qed.

Lemma build_loop_nonempty (fuel : nat) : forall nodes,
  nodes <> [] -> build_loop hash_data fuel nodes <> [].
Proof.
  induction fuel as [|fuel IH]; intros nodes H; simpl; [exact H|].
  destruct (1 <? List.length nodes)%nat; [|exact H].
  apply IH, build_level_nonempty, H.
Qed.

(** X17.  The loop of [_build_tree] ends because its condition fails: given at
    least as many passes as there are leaves it leaves at most one node,
    and the same nodes as with exactly that many passes. *)
Theorem build_tree_terminates (leaf_hashes : list string) (fuel : nat) :
  (List.length leaf_hashes <= fuel)%nat ->
  build_loop hash_data fuel (map (fun h => mkNode h None None) leaf_hashes)
  = build_loop hash_data
      (List.length (map (fun h => mkNode h None None) leaf_hashes))
      (map (fun h => mkNode h None None) leaf_hashes) /\
  (List.length (build_loop hash_data fuel
     (map (fun h => mkNode h None None) leaf_hashes)) <= 1)%nat.
Proof.
  intros H. split.
  - apply build_loop_fuel; rewrite length_map; lia.
  - apply build_loop_enough. rewrite length_map. exact H.
Qed.

Lemma search_parent (h : string) (l r : Node) (x : string) :
  search_node l x = true \/ search_node r x = true ->
  search_node (mkNode h (Some l) (Some r)) x = true.
Proof.
  intros H. simpl. destruct (h =? x)%string; [reflexivity|].
  apply orb_true_iff. exact H.
Qed.

(** A pass keeps every hash value that was in the trees. *)
Lemma found_build_level (x : string) (nodes : list Node) :
  found x nodes = true -> found x (build_level hash_data nodes) = true.
Proof.
  unfold found.
  induction nodes as [|a|a b l IH] using list_pair_ind; intros H.
  - discriminate.
  - simpl in H. rewrite orb_false_r in H.
    cbn [build_level existsb]. rewrite search_parent by (left; exact H).
    reflexivity.
  - cbn [existsb] in H. cbn [build_level existsb].
    apply orb_true_iff in H. destruct H as [H|H].
    + rewrite search_parent by (left; exact H). reflexivity.
    + apply orb_true_iff in H. destruct H as [H|H].
      * rewrite search_parent by (right; exact H). reflexivity.
      * rewrite IH by exact H. apply orb_true_r.
Qed.

Lemma found_build_loop (x : string) (fuel : nat) : forall nodes,
  found x nodes = true -> found x (build_loop hash_data fuel nodes) = true.
Proof.
  induction fuel as [|fuel IH]; intros nodes H; simpl; [exact H|].
  destruct (1 <? List.length nodes)%nat; [|exact H].
  apply IH, found_build_level, H.
Qed.

(** What was found among the leaf nodes is found from the root. *)
Lemma found_root (x : string) (hashes : list string) :
  found x (map (fun h => mkNode h None None) hashes) = true ->
  exists n, _build_tree hash_data hashes = Some n /\ search_node n x = true.
Proof.
  intros H. unfold Merkle._build_tree.
  set (nodes := map (fun h => mkNode h None None) hashes) in *.
  pose proof (build_loop_enough (List.length nodes) nodes (Nat.le_refl _))
    as Hlen.
  pose proof (found_build_loop x (List.length nodes) nodes H) as Hf.
  destruct (build_loop hash_data (List.length nodes) nodes) as [|n [|m l]].
  - discriminate.
  - exists n. split; [reflexivity|].
    unfold found in Hf. simpl in Hf. rewrite orb_false_r in Hf. exact Hf.
  - simpl in Hlen. lia.
Qed.

Lemma found_leaf (x : string) (hashes : list string) :
  In x hashes -> found x (map (fun h => mkNode h None None) hashes) = true.
Proof.
  intros H. unfold found. apply existsb_exists.
  exists (mkNode x None None). split.
  - apply in_map_iff. exists x. auto.
  - simpl. rewrite String.eqb_refl. reflexivity.
Qed.

Lemma search_finds_leaves_aux (leaves : list string) (leaf : string) :
  In leaf leaves -> search hash_data (new_tree hash_data leaves) leaf = true.
Proof.
  intros H. unfold Merkle.search, Merkle.new_tree. cbn [root].
  destruct (found_root (hash_data leaf) (map hash_data leaves))
    as (n & E & Hs).
  - apply found_leaf, in_map, H.
  - rewrite E. exact Hs.
Qed.

(** X13.  Every leaf a tree was built from is found by [search]. *)
Theorem search_finds_leaves (leaves : list string) (leaf : string) :
  In leaf leaves -> search hash_data (new_tree hash_data leaves) leaf = true.
Proof. apply search_finds_leaves_aux. Qed.

(** X14.  A tree has a root exactly when it was built from at least one leaf;
    nothing is found in the tree without leaves; the root of a tree of
    one leaf is the hash of that leaf. *)
Theorem root_of_tree (leaves : list string) :
  (get_root (new_tree hash_data leaves) = None <-> leaves = []) /\
  (forall x, search hash_data (new_tree hash_data []) x = false) /\
  (forall x, get_root (new_tree hash_data [x]) = Some (hash_data x)).
Proof.
  split; [|split; reflexivity].
  split.
  - intros H. destruct leaves as [|x l]; [reflexivity|]. exfalso.
    unfold get_root, Merkle.new_tree, Merkle._build_tree in H. cbn [root] in H.
    set (nodes := map (fun h => mkNode h None None) (map hash_data (x :: l)))
      in H.
    pose proof (build_loop_nonempty (List.length nodes) nodes) as Hne.
    destruct (build_loop hash_data (List.length nodes) nodes) as [|n rest].
    + apply Hne; [discriminate | reflexivity].
    + discriminate.
  - intros ->. reflexivity.
Qed.

(** X15.  [search] also reports strings that are no leaf: the concatenation of
    the hashes of the first two leaves hashes to an inner node, and is
    found. *)
Theorem search_finds_inner_node (a b : string) (rest : list string) :
  search hash_data (new_tree hash_data (a :: b :: rest)) (hash_data a ++ hash_data b) = true.
Proof.
  unfold Merkle.search, Merkle.new_tree, Merkle._build_tree. cbn [root].
  set (x := hash_data (hash_data a ++ hash_data b)).
  set (nodes := map (fun h => mkNode h None None)
                    (map hash_data (a :: b :: rest))).
  assert (Hf : found x (build_loop hash_data (List.length nodes) nodes) = true).
  { unfold nodes. cbn [map List.length].
    rewrite build_loop_step by (cbn [List.length]; lia).
    apply found_build_loop. cbn [Merkle.build_level hash_value].
    unfold found. cbn [existsb search_node]. fold x.
    rewrite String.eqb_refl. reflexivity. }
  pose proof (build_loop_enough (List.length nodes) nodes (Nat.le_refl _))
    as Hlen.
  destruct (build_loop hash_data (List.length nodes) nodes) as [|n [|m l]].
  - discriminate.
  - cbn [hd_error Merkle._search].
    unfold found in Hf. simpl in Hf. rewrite orb_false_r in Hf. exact Hf.
  - simpl in Hlen. lia.
Qed.

Lemma build_level_app (l1 l2 : list Node) :
  Nat.even (List.length l1) = true ->
  build_level hash_data (l1 ++ l2) = build_level hash_data l1 ++ build_level hash_data l2.
Proof.
  induction l1 as [|x|x y l IH] using list_pair_ind; intros H.
  - reflexivity.
  - discriminate.
  - cbn [List.length Nat.even] in H.
    change ((x :: y :: l) ++ l2) with (x :: y :: (l ++ l2)).
    cbn [build_level]. rewrite IH by exact H. reflexivity.
Qed.

(** X16.  When the leaves are an odd number, three or more, repeating
    the last one does not change the tree: two different lists of leaves
    have the same root. *)
Theorem duplicated_last_leaf (leaves : list string) (x : string) :
  leaves <> [] ->
  Nat.even (List.length leaves) = true ->
  root (new_tree hash_data (leaves ++ [x])) = root (new_tree hash_data (leaves ++ [x; x])).
Proof.
  intros Hne Heven. unfold Merkle.new_tree, Merkle._build_tree. cbn [root].
  rewrite !map_app. f_equal.
  set (L := map (fun h => mkNode h None None) (map hash_data leaves)).
  set (n := mkNode (hash_data x) None None).
  cbn [map]. fold n.
  assert (HL : List.length L = List.length leaves)
    by (unfold L; rewrite !length_map; reflexivity).
  assert (H2 : (2 <= List.length leaves)%nat).
  { destruct leaves as [|a [|b l]]; [congruence | discriminate | simpl; lia]. }
  rewrite !length_app. cbn [List.length].
  replace (List.length L + 1)%nat with (S (List.length L)) by lia.
  replace (List.length L + 2)%nat with (S (S (List.length L))) by lia.
  rewrite !build_loop_step by (rewrite length_app; cbn [List.length]; lia).
  rewrite !build_level_app by (rewrite HL; exact Heven).
  cbn [Merkle.build_level].
  apply build_loop_fuel; rewrite length_app, build_level_length;
    cbn [List.length];
    pose proof (div2_succ_le (List.length L)); lia.
Qed.

Lemma sum_bools_const (b : bool) (l : list nat) (acc : Z) :
  fold_left (fun a (c : bool) => (a + if c then 1 else 0)%Z)
            (map (fun _ => b) l) acc
  = (acc + if b then Z.of_nat (List.length l) else 0)%Z.
Proof.
  revert acc. induction l as [|i l IH]; intros acc; simpl.
  - destruct b; lia.
  - rewrite IH. destruct b; lia.
Qed.

(** X18.  [concurrent_searches] returns the number of searches when the leaf
    "EncEHR500" is found in the tree, and 0 when it is not. *)
Theorem concurrent_searches_count (tree : MerkleTree) (num_searches : Z) :
  concurrent_searches hash_data tree num_searches =
  if search hash_data tree "EncEHR500" then Z.max num_searches 0 else 0%Z.
Proof.
  unfold concurrent_searches, sum_bools. rewrite sum_bools_const.
  unfold range. rewrite length_seq.
  destruct (search hash_data tree "EncEHR500"); lia.
Qed.

Lemma search_leaf_500 (num_leaves : Z) :
  (500 < num_leaves)%Z ->
  search hash_data (new_tree hash_data (ehr_leaves num_leaves)) "EncEHR500"
  = true.
Proof.
  intros H. apply search_finds_leaves_aux.
  unfold ehr_leaves. apply in_map_iff. exists 500%nat.
  split; [reflexivity|].
  unfold range. apply in_seq. lia.
Qed.

(** X19.  On the tree [throughput_test] builds from more than 500 leaves, every
    search of [concurrent_searches] succeeds. *)
Theorem throughput_searches_succeed (num_leaves num_searches : Z) :
  (500 < num_leaves)%Z ->
  concurrent_searches hash_data (new_tree hash_data (ehr_leaves num_leaves))
    num_searches = Z.max num_searches 0.
Proof.
  intros H.
  unfold concurrent_searches, sum_bools. rewrite sum_bools_const.
  unfold range at 1. rewrite length_seq.
  rewrite search_leaf_500 by exact H. lia.
Qed.

End Tree.

End MerkleFacts.

(** ** More on the scheme *)

Section SchemeMore.

Context {PG : PairingGroup}.

Local Open Scope zr_scope.

Add Field zr_field_more : zr_field.

(** X9.  The keys [setup] returns: both sequences of the proving key have
    [d + 1] elements, and element [i] of the second is element [i] of the
    first raised to [alpha], which the pairing shows against the first
    component of the verification key; the object is left with a target
    polynomial of one coefficient and its degree unchanged. *)
Theorem setup_keys (d : nat) (rnd : coins) :
  length (fst (pk_of d rnd)) = (d + 1)%nat /\
  length (snd (pk_of d rnd)) = (d + 1)%nat /\
  (forall i, (i <= d)%nat ->
     nth i (snd (pk_of d rnd)) g1_one
       = g1_pow (nth i (fst (pk_of d rnd)) g1_one) (rnd_alpha rnd) /\
     pair (nth i (snd (pk_of d rnd)) g1_one) (rnd_g rnd)
       = pair (nth i (fst (pk_of d rnd)) g1_one) (fst (vk_of d rnd))) /\
  self_t_coeffs (after_setup d rnd) = Some [rnd_t rnd] /\
  self_d (after_setup d rnd) = d.
Proof.
  unfold pk_of, vk_of, after_setup. rewrite setup_eq. cbn [fst snd].
  rewrite !length_map, !length_seq.
  split; [lia|]. split; [lia|]. split; [|split; reflexivity].
  intros i Hi.
  assert (E1 : nth i (map (fun i => g1_pow (rnd_g rnd) (zr_pown (rnd_s rnd) i))
                          (seq 0 (S d))) g1_one
               = g1_pow (rnd_g rnd) (zr_pown (rnd_s rnd) i)).
  { rewrite (nth_indep _ g1_one
               (g1_pow (rnd_g rnd) (zr_pown (rnd_s rnd) 0)))
      by (rewrite length_map, length_seq; lia).
    rewrite (map_nth (fun i => g1_pow (rnd_g rnd) (zr_pown (rnd_s rnd) i))).
    rewrite seq_nth by lia. reflexivity. }
  assert (E2 : nth i (map (fun i => g1_pow (rnd_g rnd)
                                      (rnd_alpha rnd * zr_pown (rnd_s rnd) i))
                          (seq 0 (S d))) g1_one
               = g1_pow (rnd_g rnd) (rnd_alpha rnd * zr_pown (rnd_s rnd) i)).
  { rewrite (nth_indep _ g1_one
               (g1_pow (rnd_g rnd) (rnd_alpha rnd * zr_pown (rnd_s rnd) 0)))
      by (rewrite length_map, length_seq; lia).
    rewrite (map_nth (fun i => g1_pow (rnd_g rnd)
                                 (rnd_alpha rnd * zr_pown (rnd_s rnd) i))).
    rewrite seq_nth by lia. reflexivity. }
  rewrite E1, E2. split.
  - rewrite g1_pow_pow. f_equal; ring.
  - rewrite !pair_pow_l, !pair_pow_r, gt_pow_pow. f_equal; ring.
Qed.

(** X10.  The three components of a proof [prove] returns after [setup] are
    tied to each other: the first is [g ** p(s)] blinded, the third is the
    first raised to [alpha], and the first is the second raised to the
    target coefficient. *)
Theorem proof_components (d : nat) (rnd : coins) (p : list ZR) (delta : ZR)
  (A B C : G1) :
  prove (after_setup d rnd) (pk_of d rnd) p delta = Ok (A, B, C) ->
  A = g1_pow (g1_pow (rnd_g rnd) (eval_at p (rnd_s rnd))) delta /\
  C = g1_pow A (rnd_alpha rnd) /\
  A = g1_pow B (rnd_t rnd).
Proof.
  intros E.
  destruct (zr_eqb_spec (rnd_t rnd) zr0) as [Hz|Hnz].
  { rewrite prove_zero_target in E by exact Hz. discriminate. }
  destruct (Nat.eq_dec (length p) (S d)) as [Hlen|Hlen].
  2:{ rewrite prove_wrong_length in E by assumption. discriminate. }
  destruct (prove_right_length d rnd p delta Hnz Hlen) as (q & Hq & Hdiv & E').
  rewrite <- Hlen in E'. rewrite E' in E. injection E as <- <- <-.
  split; [|split].
  - unfold eval_at, len. rewrite range_of_nat, py_sum_bigsum.
    reflexivity.
  - rewrite !g1_pow_pow. f_equal.
    rewrite (bigsum_ext _
      (fun i => rnd_alpha rnd * (coef p i * zr_pown (rnd_s rnd) i)))
      by (intros; ring).
    rewrite bigsum_scale. ring.
  - rewrite !g1_pow_pow. f_equal. rewrite Hq.
    rewrite (bigsum_ext
      (fun i => coef p i * zr_pown (rnd_s rnd) i)
      (fun i => rnd_t rnd * (zr_pown (rnd_s rnd) i * coef q i)))
      by (intros i _; rewrite <- Hdiv; ring).
    rewrite bigsum_scale. ring.
Qed.

(** X11.  On an object on which [setup] has not run, [prove] and [verify] raise
    [AttributeError], whatever their arguments. *)
Theorem methods_need_setup (d : nat) (PK : ProvingKey) (VK : VerificationKey)
  (p : list ZR) (delta : ZR) (pi : proof_t) :
  prove (init d) PK p delta = Raise AttributeError /\
  verify (init d) VK pi = Raise AttributeError.
Proof.
  split.
  - destruct PK as [g_s_i g_alpha_s_i]. unfold prove, init.
    cbn [self_s self_g]. unfold len.
    destruct p as [|c p]; [reflexivity|].
    rewrite range_of_nat. reflexivity.
  - destruct pi as [[A B] C], VK as [g_alpha g_t_s]. reflexivity.
Qed.

(** X12.  [test_zksnark] on its four random coefficients: the verification
    result is [True] whenever the target coefficient drawn by [setup] is
    not zero; when it is zero the run stops with [ValueError]. *)
Theorem test_zksnark_result (vc : nat -> ZR) (rnd : coins) (delta : ZR) :
  test_zksnark vc rnd delta =
  if rnd_t rnd == zr0 then Raise ValueError else Ok true.
Proof.
  assert (Erun : test_zksnark vc rnd delta =
                 (pi <- prove (after_setup 3 rnd) (pk_of 3 rnd)
                          (map vc (range (Z.of_nat 3 + 1))) delta ;;
                  verified <- verify (after_setup 3 rnd) (vk_of 3 rnd) pi ;;
                  Ok verified)).
  { unfold test_zksnark, after_setup, pk_of, vk_of.
    destruct (setup (init 3) rnd) as [self [PK VK]]. reflexivity. }
  rewrite Erun.
  destruct (zr_eqb_spec (rnd_t rnd) zr0) as [Hz|Hnz].
  - rewrite prove_zero_target by exact Hz. reflexivity.
  - destruct (prove_then_verify 3 rnd (map vc (range (Z.of_nat 3 + 1))) delta
                Hnz) as (pi & E & Ev).
    + rewrite range_succ, length_map, length_seq. reflexivity.
    + rewrite E. cbn [bind]. rewrite Ev. reflexivity.
Qed.

End SchemeMore.

(** ** The extra properties over the field of thirteen elements *)

Module Toy13More.

Import Toy.

(** [division_returns_exact] on the concrete scenario. *)
Lemma division_returns_exact_witness :
  length (poly13 [-3; 1]%Z)
    = Z.to_nat (len (poly13 [6; -5; 1]%Z) - len (poly13 [-2; 1]%Z) + 1) /\
  (forall k, @zr_add F13 (conv_pairs (poly13 [-3; 1]%Z) (poly13 [-2; 1]%Z) k)
                         (coef [] k)
             = coef (poly13 [6; -5; 1]%Z) k) /\
  (@coef F13 (poly13 [-2; 1]%Z) 0 <> zr0 ->
   forall k, (k < length (poly13 [-3; 1]%Z))%nat -> @coef F13 [] k = zr0) /\
  (length (@nil (@ZR F13)) <= length (poly13 [6; -5; 1]%Z))%nat /\
  (@nil (@ZR F13) = [] \/ last (@nil (@ZR F13)) zr0 <> zr0).
Proof.
  apply (@division_returns_exact F13 (poly13 [6; -5; 1]%Z)
           (poly13 [-2; 1]%Z) (poly13 [-3; 1]%Z) []).
  vm_compute. reflexivity.
Defined.

(** [division_returns_when_constant_nonzero] on a divisor [3 + x]. *)
Lemma division_returns_when_constant_nonzero_witness :
  exists q r,
    @polynomial_division F13 (poly13 [1; 2; 3]%Z) (poly13 [3; 1]%Z)
    = Ok (q, r).
Proof.
  apply (@division_returns_when_constant_nonzero F13).
  vm_compute. discriminate.
Defined.

(** [divide_by_constant] on the constant 4. *)
Lemma divide_by_constant_witness :
  exists q,
    @polynomial_division F13 (poly13 [1; 2; 3]%Z) [z13 4] = Ok (q, []) /\
    length q = length (poly13 [1; 2; 3]%Z) /\
    forall k, @zr_mul F13 (coef q k) (z13 4) = coef (poly13 [1; 2; 3]%Z) k.
Proof.
  apply (@divide_by_constant F13 (poly13 [1; 2; 3]%Z) (z13 4)).
  vm_compute. discriminate.
Defined.

(** [multiply_then_divide] on [(x - 3) * (x - 2)]. *)
Lemma multiply_then_divide_witness :
  @polynomial_division F13 (poly13 [6; -5; 1]%Z) (poly13 [-2; 1]%Z)
  = Ok (poly13 [-3; 1]%Z, []).
Proof.
  apply (@multiply_then_divide F13).
  - vm_compute. discriminate.
  - vm_compute. reflexivity.
Defined.

(** [division_output_checked] where the check refuses the division's own
    output: [p] has one entry and [t] has three. *)
Lemma division_output_checked_witness :
  @verify_polynomial_division F13 (poly13 [1]%Z) (poly13 [1; 0; 1]%Z)
    [] (poly13 [1]%Z)
  = Ok (length (poly13 [1; 0; 1]%Z) <=? length (poly13 [1]%Z) + 1).
Proof.
  apply (@division_output_checked F13).
  vm_compute. reflexivity.
Defined.

(** [proof_components] on the proof of three coefficients under degree
    bound 2. *)
Lemma proof_components_witness :
  z13 8 = @g1_pow F13 (g1_pow (rnd_g rnd13)
                         (eval_at (poly13 [1; 2; 3]%Z) (rnd_s rnd13)))
                      (z13 9) /\
  z13 4 = @g1_pow F13 (z13 8) (rnd_alpha rnd13) /\
  z13 8 = @g1_pow F13 (z13 2) (rnd_t rnd13).
Proof.
  apply (@proof_components F13 2 rnd13 (poly13 [1; 2; 3]%Z) (z13 9)).
  vm_compute. reflexivity.
Defined.

End Toy13More.

(** ** The Merkle-tree index with the identity in place of the hash *)

Module MerkleToy.

Import Stdlib.Strings.String.
Import Merkle.

(** [search_finds_leaves] on three leaves. *)
Lemma search_finds_leaves_witness :
  search id_hash (new_tree id_hash ["a"; "b"; "c"]%string) "b" = true.
Proof.
  apply MerkleFacts.search_finds_leaves.
  right. left. reflexivity.
Defined.

(** [duplicated_last_leaf] on three and four leaves. *)
Lemma duplicated_last_leaf_witness :
  root (new_tree id_hash (List.app ["a"; "b"]%string ["c"]%string))
  = root (new_tree id_hash (List.app ["a"; "b"]%string ["c"; "c"]%string)).
Proof.
  apply MerkleFacts.duplicated_last_leaf.
  - discriminate.
  - reflexivity.
Defined.

(** [throughput_searches_succeed] on 501 leaves and 100 searches. *)
Lemma throughput_searches_succeed_witness :
  concurrent_searches id_hash (new_tree id_hash (ehr_leaves 501)) 100
  = Z.max 100 0.
Proof.
  apply MerkleFacts.throughput_searches_succeed. lia.
Defined.

(** [build_tree_terminates] on three leaf hashes and ten passes. *)
Lemma build_tree_terminates_witness :
  build_loop id_hash 10
    (map (fun h => mkNode h None None) ["a"; "b"; "c"]%string)
  = build_loop id_hash
      (List.length (map (fun h => mkNode h None None) ["a"; "b"; "c"]%string))
      (map (fun h => mkNode h None None) ["a"; "b"; "c"]%string) /\
  (List.length (build_loop id_hash 10
     (map (fun h => mkNode h None None) ["a"; "b"; "c"]%string)) <= 1)%nat.
Proof.
  apply MerkleFacts.build_tree_terminates. simpl. lia.
Defined.

End MerkleToy.
